(** * mousetrap-record: the recording state machine and its combo normalizer

    A shallow embedding of [src/mousetrap-record.js].  The module keeps one
    mutable recording session in closure variables; here that session is an
    explicit [state] threaded through a small state-and-exception monad.

    Modelling conventions.
    - Key names are byte strings.  [String.length] stands for JavaScript's
      [.length] and [String.compare] for the relational operators on
      strings; both agree with JavaScript on key names whose characters are
      single code units below 256, which is what the dispatcher reports.
    - A combo is a JavaScript array of key names.  Arrays are objects: the
      accumulator [_currentRecordedKeys] is pushed into the sequence by
      reference and sorted in place by the normalizer, so key arrays live in
      a store ([heap]) and are named by their location.
    - The outer sequence array is only ever aliased by the argument handed
      to a callback, which the module never touches again, so it is a value.
    - User callbacks and the original dispatcher entry point are opaque:
      calling one appends an entry to the [trace] and returns normally,
      without re-entering the module.
    - Time is not modelled: a pending timer may fire at any later point,
      which is the input [TimerFires]. *)

From Stdlib Require Import String Ascii List ZArith Lia Bool.
From Stdlib Require Import Sorting.Sorted Sorting.Permutation.
From stdpp Require Import base list sorting.
Import ListNotations.

Local Open Scope string_scope.
Local Open Scope list_scope.

(** ** The combo comparator and [Array.prototype.sort] *)

Module Normalizer.

(** The comparison function handed to [sort] at lines 188-199:
    a modifier (length > 1) goes before a character key (length 1);
    otherwise [x > y ? 1 : -1]. *)
Definition compareKeys (x y : string) : Z :=
  if (1 <? String.length x)%nat && (String.length y =? 1)%nat then (-1)%Z
  else if (String.length x =? 1)%nat && (1 <? String.length y)%nat then 1%Z
  else match String.compare x y with Gt => 1%Z | _ => (-1)%Z end.

(** [Array.prototype.sort] with a comparison function: [x] is placed before
    [y] when the function returns a negative number.  The engine's algorithm
    is not fixed by the language; insertion is used here, and
    [sort_unique] below shows that on a duplicate-free combo every
    algorithm that returns an ordered permutation returns this list. *)
Section Sort.
Context {A : Type} (cmp : A -> A -> Z).

Fixpoint insert_by (x : A) (l : list A) : list A :=
  match l with
  | [] => [x]
  | y :: r => if (cmp x y <? 0)%Z then x :: y :: r else y :: insert_by x r
  end.

Fixpoint sort_by (l : list A) : list A :=
  match l with
  | [] => []
  | x :: r => insert_by x (sort_by r)
  end.
End Sort.

(** [combo.sort(compareKeys)] and [combo.join('+')]. *)
Definition sortCombo (combo : list string) : list string :=
  sort_by compareKeys combo.

Definition join (sep : string) (l : list string) : string :=
  String.concat sep l.

Definition normalizeCombo (combo : list string) : string :=
  join "+" (sortCombo combo).

(** The order the comparator induces: [x] goes before [y]. *)
Definition before (x y : string) : Prop := (compareKeys x y < 0)%Z.

(** Plain lexicographic order on key names. *)
Definition lex_lt (x y : string) : Prop := String.compare x y = Lt.

Definition is_modifier (k : string) : bool := (1 <? String.length k)%nat.
Definition is_character (k : string) : bool := (String.length k =? 1)%nat.

(** The class of a key name: 0 for the empty name, 1 for a modifier or
    named key, 2 for a character key. *)
Definition rank (k : string) : nat :=
  match String.length k with
  | 0 => 0
  | 1 => 2
  | _ => 1
  end.

End Normalizer.

(** ** JavaScript values used as options *)

Module Js.

(** The values an option or an argument of [record] can hold.  Numbers are
    integers; [VNaN] stands for the one number that is falsy besides zero. *)
Inductive value :=
| VUndefined
| VNull
| VBool (b : bool)
| VNum (n : Z)
| VNaN
| VStr (s : string).

(** ToBoolean. *)
Definition truthy (v : value) : bool :=
  match v with
  | VUndefined | VNull | VNaN => false
  | VBool b => b
  | VNum n => negb (n =? 0)%Z
  | VStr s => negb (String.length s =? 0)%nat
  end.

(** [a || b]. *)
Definition or_else (a b : value) : value := if truthy a then a else b.

(** An opaque user function, named by a number. *)
Inductive fn := Fn (id : nat).

(** The thrown values that matter here. *)
Inductive exn := TypeError.

End Js.

(** ** The recorder *)

Module Recorder.
Import Normalizer Js.

(** The [options] argument of the module: each property is present or not. *)
Record options := {
  opt_timeout : option value;
  opt_preventDefault : option value;
  opt_noRepeat : option value
}.

Record config := {
  timeout : value;
  preventDefault : value;
  noRepeat : value
}.

(** [Object.assign({timeout: 1000, preventDefault: false, noRepeat: false},
    options)], lines 14-18. *)
Definition mergeConfig (o : options) : config :=
  {| timeout := default (VNum 1000) (opt_timeout o);
     preventDefault := default (VBool false) (opt_preventDefault o);
     noRepeat := default (VBool false) (opt_noRepeat o) |}.

(** The raw event: [e.type] and [e.repeat].  The dispatcher binds keypress,
    keydown and keyup alike. *)
Inductive eventType := keydown | keyup | keypress.

Record KeyEvent := {
  type : eventType;
  repeat : bool
}.

(** A location in the store of key arrays. *)
Abbreviation loc := nat.

(** An element of a sequence array: a key array (by reference) before
    normalization, a '+'-joined string after. *)
Inductive elem :=
| Combo (l : loc)
| Joined (s : string).

(** What the module does to the outside world, in order. *)
Inductive effect :=
| Forwarded (character : string) (modifiers : list string) (e : KeyEvent)
| DefaultPrevented (e : KeyEvent)
| ProgressCalled (f : fn) (sequence : list elem)
| CompleteCalled (f : fn) (sequence : list elem).

(** The closure variables of lines 14-89, the store of key arrays, the
    [recording] property of the dispatcher instance and the trace.
    [_recordedSequenceCallback] is [None] for [null] and [Some callback] for
    the wrapper of lines 255-258, which closes over the [callback] argument
    of [record] ([None] there: the argument was not a function).
    [_recordTimer] is [Some d] while a single-shot timer of delay [d] is
    pending. *)
Record state := {
  heap : list (list string);
  _config : config;
  _recordedSequence : list elem;
  _recordedSequenceCallback : option (option fn);
  _recordProgressCallback : option fn;
  _currentRecordedKeys : loc;
  _recordedCharacterKey : bool;
  _recordTimer : option value;
  _recordTimeout : value;
  _preventDefault : value;
  _noRepeat : value;
  recording : bool;
  trace : list effect
}.

Definition set_heap (h : list (list string)) (s : state) : state :=
  {| heap := h; _config := _config s;
     _recordedSequence := _recordedSequence s;
     _recordedSequenceCallback := _recordedSequenceCallback s;
     _recordProgressCallback := _recordProgressCallback s;
     _currentRecordedKeys := _currentRecordedKeys s;
     _recordedCharacterKey := _recordedCharacterKey s;
     _recordTimer := _recordTimer s; _recordTimeout := _recordTimeout s;
     _preventDefault := _preventDefault s; _noRepeat := _noRepeat s;
     recording := recording s; trace := trace s |}.

Definition set_recordedSequence (q : list elem) (s : state) : state :=
  {| heap := heap s; _config := _config s;
     _recordedSequence := q;
     _recordedSequenceCallback := _recordedSequenceCallback s;
     _recordProgressCallback := _recordProgressCallback s;
     _currentRecordedKeys := _currentRecordedKeys s;
     _recordedCharacterKey := _recordedCharacterKey s;
     _recordTimer := _recordTimer s; _recordTimeout := _recordTimeout s;
     _preventDefault := _preventDefault s; _noRepeat := _noRepeat s;
     recording := recording s; trace := trace s |}.

Definition set_recordedSequenceCallback (c : option (option fn)) (s : state)
  : state :=
  {| heap := heap s; _config := _config s;
     _recordedSequence := _recordedSequence s;
     _recordedSequenceCallback := c;
     _recordProgressCallback := _recordProgressCallback s;
     _currentRecordedKeys := _currentRecordedKeys s;
     _recordedCharacterKey := _recordedCharacterKey s;
     _recordTimer := _recordTimer s; _recordTimeout := _recordTimeout s;
     _preventDefault := _preventDefault s; _noRepeat := _noRepeat s;
     recording := recording s; trace := trace s |}.

Definition set_recordProgressCallback (c : option fn) (s : state) : state :=
  {| heap := heap s; _config := _config s;
     _recordedSequence := _recordedSequence s;
     _recordedSequenceCallback := _recordedSequenceCallback s;
     _recordProgressCallback := c;
     _currentRecordedKeys := _currentRecordedKeys s;
     _recordedCharacterKey := _recordedCharacterKey s;
     _recordTimer := _recordTimer s; _recordTimeout := _recordTimeout s;
     _preventDefault := _preventDefault s; _noRepeat := _noRepeat s;
     recording := recording s; trace := trace s |}.

Definition set_currentRecordedKeys (l : loc) (s : state) : state :=
  {| heap := heap s; _config := _config s;
     _recordedSequence := _recordedSequence s;
     _recordedSequenceCallback := _recordedSequenceCallback s;
     _recordProgressCallback := _recordProgressCallback s;
     _currentRecordedKeys := l;
     _recordedCharacterKey := _recordedCharacterKey s;
     _recordTimer := _recordTimer s; _recordTimeout := _recordTimeout s;
     _preventDefault := _preventDefault s; _noRepeat := _noRepeat s;
     recording := recording s; trace := trace s |}.

Definition set_recordedCharacterKey (b : bool) (s : state) : state :=
  {| heap := heap s; _config := _config s;
     _recordedSequence := _recordedSequence s;
     _recordedSequenceCallback := _recordedSequenceCallback s;
     _recordProgressCallback := _recordProgressCallback s;
     _currentRecordedKeys := _currentRecordedKeys s;
     _recordedCharacterKey := b;
     _recordTimer := _recordTimer s; _recordTimeout := _recordTimeout s;
     _preventDefault := _preventDefault s; _noRepeat := _noRepeat s;
     recording := recording s; trace := trace s |}.

Definition set_recordTimer (t : option value) (s : state) : state :=
  {| heap := heap s; _config := _config s;
     _recordedSequence := _recordedSequence s;
     _recordedSequenceCallback := _recordedSequenceCallback s;
     _recordProgressCallback := _recordProgressCallback s;
     _currentRecordedKeys := _currentRecordedKeys s;
     _recordedCharacterKey := _recordedCharacterKey s;
     _recordTimer := t; _recordTimeout := _recordTimeout s;
     _preventDefault := _preventDefault s; _noRepeat := _noRepeat s;
     recording := recording s; trace := trace s |}.

Definition set_options (t p n : value) (s : state) : state :=
  {| heap := heap s; _config := _config s;
     _recordedSequence := _recordedSequence s;
     _recordedSequenceCallback := _recordedSequenceCallback s;
     _recordProgressCallback := _recordProgressCallback s;
     _currentRecordedKeys := _currentRecordedKeys s;
     _recordedCharacterKey := _recordedCharacterKey s;
     _recordTimer := _recordTimer s; _recordTimeout := t;
     _preventDefault := p; _noRepeat := n;
     recording := recording s; trace := trace s |}.

Definition set_recording (b : bool) (s : state) : state :=
  {| heap := heap s; _config := _config s;
     _recordedSequence := _recordedSequence s;
     _recordedSequenceCallback := _recordedSequenceCallback s;
     _recordProgressCallback := _recordProgressCallback s;
     _currentRecordedKeys := _currentRecordedKeys s;
     _recordedCharacterKey := _recordedCharacterKey s;
     _recordTimer := _recordTimer s; _recordTimeout := _recordTimeout s;
     _preventDefault := _preventDefault s; _noRepeat := _noRepeat s;
     recording := b; trace := trace s |}.

Definition emit (x : effect) (s : state) : state :=
  {| heap := heap s; _config := _config s;
     _recordedSequence := _recordedSequence s;
     _recordedSequenceCallback := _recordedSequenceCallback s;
     _recordProgressCallback := _recordProgressCallback s;
     _currentRecordedKeys := _currentRecordedKeys s;
     _recordedCharacterKey := _recordedCharacterKey s;
     _recordTimer := _recordTimer s; _recordTimeout := _recordTimeout s;
     _preventDefault := _preventDefault s; _noRepeat := _noRepeat s;
     recording := recording s; trace := trace s ++ [x] |}.

(** *** A state monad with exceptions

    A computation changes the session and either returns or throws; what it
    did before throwing stays done. *)
Inductive result (A : Type) :=
| Ok (a : A)
| Throw (e : exn).
Arguments Ok {A} a.
Arguments Throw {A} e.

Definition M (A : Type) : Type := state -> result A * state.

Definition ret {A} (a : A) : M A := fun s => (Ok a, s).

Definition bind {A B} (m : M A) (k : A -> M B) : M B :=
  fun s =>
    match m s with
    | (Ok a, s') => k a s'
    | (Throw e, s') => (Throw e, s')
    end.

Definition throw {A} (e : exn) : M A := fun s => (Throw e, s).
Definition gets {A} (f : state -> A) : M A := fun s => (Ok (f s), s).
Definition modify (f : state -> state) : M unit := fun s => (Ok tt, f s).
Definition when (b : bool) (m : M unit) : M unit := if b then m else ret tt.

Notation "x <- m ;; k" := (bind m (fun x => k))
  (at level 100, m at next level, right associativity).
Notation "m ;; k" := (bind m (fun _ => k))
  (at level 100, right associativity).

(** [for (i = 0; i < l.length; ++i) body(l[i])]; a throw leaves the loop. *)
Fixpoint for_each {A} (body : A -> M unit) (l : list A) : M unit :=
  match l with
  | [] => ret tt
  | x :: r => body x ;; for_each body r
  end.

(** [[]]: a new empty key array. *)
Definition alloc_empty : M loc :=
  fun s => (Ok (length (heap s)), set_heap (heap s ++ [[]]) s).

(** *** [_normalizeSequence], lines 184-203

    The loop over a sequence array whose elements are [sequence] and the
    store [h]: each key array is sorted in place, then the element is
    replaced by the joined string.  A string element has no [sort] method,
    so the call throws a TypeError; a reference to no array of the store
    does not arise and is given the same outcome.  The result is how the
    loop ended, the elements of the sequence array and the store at that
    point. *)
Fixpoint _normalizeSequence (sequence : list elem) (h : list (list string))
  : result unit * (list elem * list (list string)) :=
  match sequence with
  | [] => (Ok tt, ([], h))
  | Combo l :: rest =>
      match h !! l with
      | Some keys =>
          let sorted := sortCombo keys in
          match _normalizeSequence rest (<[l := sorted]> h) with
          | (r, (rest', h')) => (r, (Joined (join "+" sorted) :: rest', h'))
          end
      | None => (Throw TypeError, (sequence, h))
      end
  | Joined _ :: _ => (Throw TypeError, (sequence, h))
  end.

(** [_normalizeSequence(seq)] on a local array [seq]; returns its elements
    afterwards. *)
Definition normalizeLocal (seq : list elem) : M (list elem) :=
  fun s =>
    match _normalizeSequence seq (heap s) with
    | (Ok _, (seq', h')) => (Ok seq', set_heap h' s)
    | (Throw e, (_, h')) => (Throw e, set_heap h' s)
    end.

(** [_normalizeSequence(_recordedSequence)]. *)
Definition normalizeRecorded : M unit :=
  fun s =>
    match _normalizeSequence (_recordedSequence s) (heap s) with
    | (r, (seq', h')) => (r, set_recordedSequence seq' (set_heap h' s))
    end.

(** *** [_restartRecordTimer], lines 231-234 *)
Definition _restartRecordTimer : M unit :=
  modify (fun s => set_recordTimer (Some (_recordTimeout s)) s).

(** *** [_recordCurrentCombo], lines 168-173 *)
Definition _recordCurrentCombo : M unit :=
  modify (fun s =>
    set_recordedSequence
      (_recordedSequence s ++ [Combo (_currentRecordedKeys s)]) s) ;;
  l <- alloc_empty ;;
  modify (set_currentRecordedKeys l) ;;
  modify (set_recordedCharacterKey false) ;;
  _restartRecordTimer.

(** The key array the accumulator names. *)
Definition currentKeys (s : state) : list string :=
  default [] (heap s !! _currentRecordedKeys s).

(** The progress report of lines 156-158: the sequence so far and the open
    combo are put in a new array by [concat], which copies the references to
    the key arrays, not the arrays; that array is normalized and handed to
    the progress callback [f]. *)
Definition reportProgress (f : fn) : M unit :=
  seq <- gets (fun s =>
           _recordedSequence s ++ [Combo (_currentRecordedKeys s)]) ;;
  seq' <- normalizeLocal seq ;;
  modify (emit (ProgressCalled f seq')).

(** *** [_recordKey], lines 139-160 *)
Definition _recordKey (key : string) : M unit :=
  keys <- gets currentKeys ;;
  if existsb (String.eqb key) keys then ret tt
  else
    modify (fun s =>
      set_heap (<[_currentRecordedKeys s := keys ++ [key]]> (heap s)) s) ;;
    when (String.length key =? 1)%nat
      (modify (set_recordedCharacterKey true)) ;;
    progress <- gets _recordProgressCallback ;;
    match progress with
    | Some f => reportProgress f
    | None => ret tt
    end.

(** *** [_finishRecording], lines 211-221, with the wrapper of lines
    255-258 inlined at its call *)
Definition _finishRecording : M unit :=
  cb <- gets _recordedSequenceCallback ;;
  match cb with
  | Some callback =>
      normalizeRecorded ;;
      modify (set_recording false) ;;
      match callback with
      | Some f =>
          seq <- gets _recordedSequence ;;
          modify (emit (CompleteCalled f seq))
      | None => throw TypeError
      end
  | None => ret tt
  end ;;
  modify (set_recordedSequence []) ;;
  modify (set_recordedSequenceCallback None) ;;
  l <- alloc_empty ;;
  modify (set_currentRecordedKeys l).

(** *** [_handleKey], lines 99-131 *)
Definition _handleKey (character : string) (modifiers : list string)
  (e : KeyEvent) : M unit :=
  nr <- gets _noRepeat ;;
  if truthy nr && repeat e then ret tt
  else
    rec <- gets recording ;;
    if negb rec then modify (emit (Forwarded character modifiers e))
    else
      pd <- gets _preventDefault ;;
      when (truthy pd) (modify (emit (DefaultPrevented e))) ;;
      match type e with
      | keydown =>
          flag <- gets _recordedCharacterKey ;;
          when ((String.length character =? 1)%nat && flag)
            _recordCurrentCombo ;;
          for_each _recordKey modifiers ;;
          _recordKey character
      | keyup =>
          keys <- gets currentKeys ;;
          when (0 <? length keys)%nat _recordCurrentCombo
      | keypress => ret tt
      end.

(** *** [Mousetrap.prototype.record], lines 243-259 *)
Definition record (callback : option fn)
  (timeout' preventDefault' noRepeat' : value)
  (progressCallback : option fn) : M unit :=
  modify (set_recording true) ;;
  modify (fun s =>
    set_options (or_else timeout' (timeout (_config s)))
      (_preventDefault s) (_noRepeat s) s) ;;
  modify (set_recordProgressCallback progressCallback) ;;
  modify (fun s =>
    set_options (_recordTimeout s)
      (or_else preventDefault' (preventDefault (_config s)))
      (or_else noRepeat' (noRepeat (_config s))) s) ;;
  modify (set_recordedSequenceCallback (Some callback)).

(** *** The module body, lines 14-89: the session before any call *)
Definition init (o : options) : state :=
  let c := mergeConfig o in
  {| heap := [[]];
     _config := c;
     _recordedSequence := [];
     _recordedSequenceCallback := None;
     _recordProgressCallback := None;
     _currentRecordedKeys := 0;
     _recordedCharacterKey := false;
     _recordTimer := None;
     _recordTimeout := timeout c;
     _preventDefault := preventDefault c;
     _noRepeat := noRepeat c;
     recording := false;
     trace := [] |}.

(** *** What can happen to the module *)
Inductive input :=
| CallRecord (callback : option fn)
    (timeout' preventDefault' noRepeat' : value)
    (progressCallback : option fn)
| KeyEventArrives (character : string) (modifiers : list string)
    (e : KeyEvent)
| TimerFires.

(** A pending timer fires once; without one nothing fires. *)
Definition fireTimer : M unit :=
  t <- gets _recordTimer ;;
  match t with
  | Some _ => modify (set_recordTimer None) ;; _finishRecording
  | None => ret tt
  end.

Definition step (i : input) : M unit :=
  match i with
  | CallRecord cb t p n pcb => record cb t p n pcb
  | KeyEventArrives c m e => _handleKey c m e
  | TimerFires => fireTimer
  end.

(** An exception that escapes a handler does not stop the event loop. *)
Definition run (inputs : list input) (s : state) : state :=
  fold_left (fun s i => snd (step i s)) inputs s.

(** *** Vocabulary of the properties *)

(** The key arrays a sequence refers to, when every element is one. *)
Fixpoint combosOf (h : list (list string)) (q : list elem)
  : option (list (list string)) :=
  match q with
  | [] => Some []
  | Combo l :: r =>
      match h !! l, combosOf h r with
      | Some keys, Some cs => Some (keys :: cs)
      | _, _ => None
      end
  | Joined _ :: _ => None
  end.

(** The input makes [_handleKey] reach a call of [_recordCurrentCombo]. *)
Definition closesCombo (i : input) (s : state) : bool :=
  match i with
  | KeyEventArrives character _ e =>
      negb (truthy (_noRepeat s) && repeat e) && recording s &&
      match type e with
      | keydown => (String.length character =? 1)%nat && _recordedCharacterKey s
      | keyup => (0 <? length (currentKeys s))%nat
      | keypress => false
      end
  | _ => false
  end.

(** No input of the run closes a combo. *)
Fixpoint noBoundary (inputs : list input) (s : state) : Prop :=
  match inputs with
  | [] => True
  | i :: r => closesCombo i s = false /\ noBoundary r (snd (step i s))
  end.

Definition isComplete (x : effect) : bool :=
  match x with CompleteCalled _ _ => true | _ => false end.

(** The accumulator holds a character key. *)
Definition holdsCharacterKey (s : state) : Prop :=
  exists k, k ∈ currentKeys s /\ String.length k = 1.

(** What every session satisfies: key arrays are duplicate-free, the
    accumulator names an array of the store, a pending timer belongs to a
    recording in progress, and the character-key flag is set whenever the
    accumulator holds a character key. *)
Record sessionInv (s : state) : Prop := {
  inv_nodup : Forall NoDup (heap s);
  inv_current : _currentRecordedKeys s < length (heap s);
  inv_timer : is_Some (_recordTimer s) -> recording s = true;
  inv_flag : holdsCharacterKey s -> _recordedCharacterKey s = true
}.

(** An element of a sequence that has not been normalized: a key array of
    the store. *)
Definition rawElem (h : list (list string)) (x : elem) : Prop :=
  match x with
  | Combo l => l < length h
  | Joined _ => False
  end.

(** [record] is given a function as its completion callback. *)
Definition callableInput (i : input) : Prop :=
  match i with
  | CallRecord None _ _ _ _ => False
  | _ => True
  end.

(** What holds in addition when every completion callback is a function:
    the sequence holds key arrays only, and a recording in progress has its
    callback. *)
Record rawInv (s : state) : Prop := {
  raw_sequence : Forall (rawElem (heap s)) (_recordedSequence s);
  raw_callable : _recordedSequenceCallback s <> Some None;
  raw_recording : recording s = true -> is_Some (_recordedSequenceCallback s)
}.

(** *** Vocabulary of the further properties *)

(** The event gets past the repeat filter and the recording test of
    [_handleKey], lines 100-109. *)
Definition processed (e : KeyEvent) (s : state) : bool :=
  negb (truthy (_noRepeat s) && repeat e) && recording s.

(** A call of the progress callback registered in [s], with an array of
    strings. *)
Definition progressCallOf (s : state) (x : effect) : Prop :=
  exists f strs,
    _recordProgressCallback s = Some f /\
    x = ProgressCalled f (map Joined strs).

(** The argument of a callback, if the effect is a call of one, is an array
    of strings. *)
Definition stringsOnly (x : effect) : Prop :=
  match x with
  | ProgressCalled _ q | CompleteCalled _ q => exists strs, q = map Joined strs
  | _ => True
  end.

(** How many inputs of the run close a combo. *)
Fixpoint countBoundaries (inputs : list input) (s : state) : nat :=
  match inputs with
  | [] => 0
  | i :: r =>
      (if closesCombo i s then 1 else 0) + countBoundaries r (snd (step i s))
  end.

(** A call of a completion callback, if the effect is one, hands over at
    least one combo. *)
Definition deliversSomething (x : effect) : Prop :=
  match x with
  | CompleteCalled _ q => q <> []
  | _ => True
  end.

(** The character-key flag is set only while the accumulator holds a
    character key, and every key array of the sequence holds a key. *)
Definition closedCombosNonEmpty (s : state) : Prop :=
  (_recordedCharacterKey s = true -> holdsCharacterKey s) /\
  (forall l, Combo l ∈ _recordedSequence s ->
             exists keys, heap s !! l = Some keys /\ keys <> []).

(** The key arrays of the sequence were all created before the
    accumulator: none of them is the accumulator. *)
Definition closedBeforeCurrent (s : state) : Prop :=
  Forall (fun x => match x with
                   | Combo l => l < _currentRecordedKeys s
                   | Joined _ => True
                   end) (_recordedSequence s).

Definition isKeyEvent (i : input) : Prop :=
  match i with
  | KeyEventArrives _ _ _ => True
  | _ => False
  end.

(** *** Scenarios *)

Definition noOptions : options :=
  {| opt_timeout := None; opt_preventDefault := None; opt_noRepeat := None |}.

Definition down : KeyEvent := {| type := keydown; repeat := false |}.
Definition up : KeyEvent := {| type := keyup; repeat := false |}.
Definition held : KeyEvent := {| type := keydown; repeat := true |}.

(** [record(f)]: only the completion callback is given. *)
Definition recordWith (f : nat) : input :=
  CallRecord (Some (Fn f)) VUndefined VUndefined VUndefined None.

(** [record(f, undefined, undefined, undefined, g)]. *)
Definition recordWithProgress (f g : nat) : input :=
  CallRecord (Some (Fn f)) VUndefined VUndefined VUndefined (Some (Fn g)).

(** "a" is pressed, "b" is pressed before "a" is released, both are
    released. *)
Definition typeAB : list input :=
  [recordWith 0;
   KeyEventArrives "a" [] down; KeyEventArrives "b" [] down;
   KeyEventArrives "a" [] up; KeyEventArrives "b" [] up].

(** "a" is typed; "b" is pressed and still held when the timer fires; a
    second recording is started and "c" is typed. *)
Definition heldAcrossSessions : list input :=
  [recordWith 0;
   KeyEventArrives "a" [] down; KeyEventArrives "a" [] up;
   KeyEventArrives "b" [] down; TimerFires;
   recordWith 1;
   KeyEventArrives "c" [] down; KeyEventArrives "c" [] up; TimerFires].

End Recorder.

(** * Properties *)

Import Normalizer Js Recorder.

(** ** The order on key names *)

Section KeyOrder.

Lemma ascii_compare_refl (a : ascii) : Ascii.compare a a = Eq.
Proof. unfold Ascii.compare. apply N.compare_refl. Qed.

Lemma ascii_compare_lt_trans (a b c : ascii) :
  Ascii.compare a b = Lt -> Ascii.compare b c = Lt -> Ascii.compare a c = Lt.
Proof.
  unfold Ascii.compare. rewrite !N.compare_lt_iff. apply N.lt_trans.
Qed.

Lemma string_compare_refl (x : string) : String.compare x x = Eq.
Proof.
  induction x as [|a x IH]; simpl; [reflexivity|].
  now rewrite ascii_compare_refl.
Qed.

Lemma string_compare_lt_trans (x y z : string) :
  String.compare x y = Lt -> String.compare y z = Lt ->
  String.compare x z = Lt.
Proof.
  revert y z.
  induction x as [|a x IH]; intros [|b y] [|c z]; simpl;
    try discriminate; try reflexivity.
  destruct (Ascii.compare a b) eqn:Hab; try discriminate;
    destruct (Ascii.compare b c) eqn:Hbc; try discriminate; intros Hxy Hyz.
  - apply Ascii.compare_eq_iff in Hab, Hbc. subst.
    rewrite ascii_compare_refl. eauto.
  - apply Ascii.compare_eq_iff in Hab. subst. now rewrite Hbc.
  - apply Ascii.compare_eq_iff in Hbc. subst. now rewrite Hab.
  - now rewrite (ascii_compare_lt_trans a b c).
Qed.

Lemma string_compare_gt_lt (x y : string) :
  String.compare x y = Gt <-> String.compare y x = Lt.
Proof.
  rewrite (String.compare_antisym y x).
  destruct (String.compare x y); simpl; split; congruence.
Qed.

Lemma string_compare_empty_r (x : string) :
  String.compare x "" = Gt \/ x = "".
Proof. destruct x; simpl; auto. Qed.

(** The comparator is a total order: by class first, then
    lexicographically. *)
Lemma before_spec (x y : string) :
  before x y <->
  rank x < rank y \/ (rank x = rank y /\ String.compare x y <> Gt).
Proof.
  unfold before, compareKeys, rank.
  remember (String.compare x y) as c eqn:E.
  destruct x as [|a [|a' x]], y as [|b [|b' y]]; simpl;
    destruct c; simpl in E; try discriminate;
    (split; [intros H|intros [H|[H H']]]); try lia; try congruence;
    try (left; lia); right; (split; [reflexivity|discriminate]).
Qed.

Lemma before_refl (x : string) : before x x.
Proof.
  apply before_spec. right. split; [reflexivity|].
  rewrite string_compare_refl. discriminate.
Qed.

Lemma before_total (x y : string) : before x y \/ before y x.
Proof.
  rewrite !before_spec.
  destruct (lt_eq_lt_dec (rank x) (rank y)) as [[H|H]|H]; auto.
  destruct (String.compare x y) eqn:E.
  - left. right. split; [assumption|discriminate].
  - left. right. split; [assumption|discriminate].
  - right. right. split; [auto|].
    apply string_compare_gt_lt in E. rewrite E. discriminate.
Qed.

Lemma before_antisym (x y : string) : before x y -> before y x -> x = y.
Proof.
  rewrite !before_spec. intros [H1|[H1 C1]] [H2|[H2 C2]]; try lia.
  destruct (String.compare x y) eqn:E.
  - now apply String.compare_eq_iff.
  - apply string_compare_gt_lt in E. congruence.
  - congruence.
Qed.

Lemma before_trans (x y z : string) : before x y -> before y z -> before x z.
Proof.
  rewrite !before_spec. intros [H1|[H1 C1]] [H2|[H2 C2]]; try (left; lia).
  right. split; [congruence|].
  destruct (String.compare x y) eqn:Exy; [| |congruence].
  - apply String.compare_eq_iff in Exy. now subst.
  - destruct (String.compare y z) eqn:Eyz; [| |congruence].
    + apply String.compare_eq_iff in Eyz. subst. rewrite Exy. discriminate.
    + rewrite (string_compare_lt_trans x y z Exy Eyz). discriminate.
Qed.

Lemma not_before (x y : string) :
  (compareKeys x y <? 0)%Z = false -> before y x.
Proof.
  intros H. destruct (before_total x y) as [Hb|Hb]; [|assumption].
  unfold before in Hb. apply Z.ltb_lt in Hb. congruence.
Qed.

#[global] Instance before_Transitive : Transitive before.
Proof. exact before_trans. Qed.

#[global] Instance before_AntiSymm : AntiSymm (=) before.
Proof. exact before_antisym. Qed.

End KeyOrder.

(** ** The sort *)

Section SortFacts.

Lemma insert_by_perm {A} (cmp : A -> A -> Z) (x : A) (l : list A) :
  Permutation (insert_by cmp x l) (x :: l).
Proof.
  induction l as [|y r IH]; simpl; [reflexivity|].
  destruct (cmp x y <? 0)%Z; [reflexivity|].
  rewrite IH. apply perm_swap.
Qed.

Lemma sort_by_perm {A} (cmp : A -> A -> Z) (l : list A) :
  Permutation (sort_by cmp l) l.
Proof.
  induction l as [|x r IH]; simpl; [reflexivity|].
  rewrite insert_by_perm. now constructor.
Qed.

Lemma insert_by_hd (x y : string) (l : list string) :
  before y x -> HdRel before y l ->
  HdRel before y (insert_by compareKeys x l).
Proof.
  intros Hyx Hl. destruct l as [|z r]; simpl; [now constructor|].
  destruct (compareKeys x z <? 0)%Z; constructor; [assumption|].
  now inversion Hl.
Qed.

Lemma insert_by_Sorted (x : string) (l : list string) :
  Sorted before l -> Sorted before (insert_by compareKeys x l).
Proof.
  induction 1 as [|y r Hr IH Hy]; simpl.
  - repeat constructor.
  - destruct (compareKeys x y <? 0)%Z eqn:E.
    + constructor; [now constructor|]. constructor. now apply Z.ltb_lt.
    + constructor; [assumption|].
      apply insert_by_hd; [now apply not_before|assumption].
Qed.

Lemma sortCombo_Sorted (l : list string) : Sorted before (sortCombo l).
Proof.
  induction l as [|x r IH]; simpl; [constructor|].
  now apply insert_by_Sorted.
Qed.

Lemma sortCombo_StronglySorted (l : list string) :
  StronglySorted before (sortCombo l).
Proof.
  apply Sorted.Sorted_StronglySorted; [|apply sortCombo_Sorted].
  intros x y z. apply before_trans.
Qed.

Lemma sortCombo_perm (l : list string) : Permutation (sortCombo l) l.
Proof. apply sort_by_perm. Qed.

(** An ordered array is left as it is. *)
Lemma sortCombo_id (l : list string) : Sorted before l -> sortCombo l = l.
Proof.
  induction 1 as [|x r Hr IH Hx]; [reflexivity|].
  unfold sortCombo in *. simpl. rewrite IH.
  destruct Hx as [|y r' Hxy]; [reflexivity|]. simpl.
  apply Z.ltb_lt in Hxy. now rewrite Hxy.
Qed.

Lemma sortCombo_idem (l : list string) :
  sortCombo (sortCombo l) = sortCombo l.
Proof. apply sortCombo_id, sortCombo_Sorted. Qed.

(** Whatever algorithm the engine uses, an ordered permutation of the
    array is the list computed here. *)
Lemma sort_unique (l l' : list string) :
  Permutation l l' -> StronglySorted before l' -> l' = sortCombo l.
Proof.
  intros Hp Hs.
  apply (StronglySorted_unique_strong before); auto.
  - intros x y _ _. apply before_antisym.
  - apply sortCombo_StronglySorted.
  - rewrite sortCombo_perm. now symmetry.
Qed.

Lemma sortCombo_NoDup (l : list string) : NoDup l -> NoDup (sortCombo l).
Proof.
  intros H. now rewrite sortCombo_perm.
Qed.

Lemma filter_perm {A} (f : A -> bool) (l l' : list A) :
  Permutation l l' -> Permutation (List.filter f l) (List.filter f l').
Proof.
  induction 1 as [|x l l' _ IH|x y l|l l' l'' _ IH1 _ IH2]; simpl.
  - reflexivity.
  - destruct (f x); [now constructor|assumption].
  - destruct (f x), (f y); try reflexivity. apply perm_swap.
  - now transitivity (List.filter f l').
Qed.

Lemma rank_modifier (k : string) : is_modifier k = true <-> rank k = 1.
Proof.
  unfold is_modifier, rank. destruct (String.length k) as [|[|n]]; simpl;
    split; intros; try reflexivity; try discriminate; lia.
Qed.

Lemma rank_character (k : string) : is_character k = true <-> rank k = 2.
Proof.
  unfold is_character, rank. destruct (String.length k) as [|[|n]]; simpl;
    split; intros; try reflexivity; try discriminate; lia.
Qed.

Lemma rank_le_2 (k : string) : rank k <= 2.
Proof. unfold rank. destruct (String.length k) as [|[|n]]; lia. Qed.

Lemma rank_nonempty (k : string) : 1 <= String.length k -> 1 <= rank k.
Proof. unfold rank. destruct (String.length k) as [|[|n]]; lia. Qed.

(** In an ordered array of non-empty names the modifiers come first and
    the character keys after them. *)
Lemma sorted_split (l : list string) :
  StronglySorted before l ->
  Forall (fun k => 1 <= String.length k) l ->
  l = List.filter is_modifier l ++ List.filter is_character l.
Proof.
  induction 1 as [|x r Hr IH Hx]; intros Hne; [reflexivity|].
  inversion Hne as [|? ? Hx1 Hr1]; subst. simpl.
  destruct (is_modifier x) eqn:Em.
  - assert (is_character x = false) as ->.
    { apply rank_modifier in Em. destruct (is_character x) eqn:Ec; auto.
      apply rank_character in Ec. lia. }
    simpl. f_equal. now apply IH.
  - assert (is_character x = true) as Ec.
    { apply rank_character. pose proof (rank_nonempty x Hx1).
      pose proof (rank_le_2 x).
      destruct (Nat.eq_dec (rank x) 1) as [E|E]; [|lia].
      apply rank_modifier in E. congruence. }
    rewrite Ec. apply rank_character in Ec.
    assert (Forall (fun k => rank k = 2) r) as Hall.
    { rewrite List.Forall_forall in Hx |- *. intros k Hk.
      specialize (Hx k Hk). apply before_spec in Hx.
      pose proof (rank_le_2 k). lia. }
    clear -Hall. 
    assert (List.filter is_modifier r = [] /\ List.filter is_character r = r)
      as [-> ->]; [|reflexivity].
    induction Hall as [|k r Hk _ [IH1 IH2]]; simpl; [auto|].
    assert (is_character k = true) as -> by now apply rank_character.
    assert (is_modifier k = false) as ->.
    { destruct (is_modifier k) eqn:E; auto. apply rank_modifier in E. lia. }
    split; [assumption|now f_equal].
Qed.

(** Keys of one class in an ordered duplicate-free array are in
    lexicographic order. *)
Lemma sorted_class_lex (f : string -> bool) (n : nat) (l : list string) :
  (forall k, f k = true -> rank k = n) ->
  StronglySorted before l -> NoDup l ->
  StronglySorted lex_lt (List.filter f l).
Proof.
  intros Hf. induction 1 as [|x r Hr IH Hx]; intros Hnd; [constructor|].
  inversion Hnd as [|? ? Hnotin Hnd']; subst. simpl.
  destruct (f x) eqn:Ex; [|now apply IH].
  constructor; [now apply IH|].
  rewrite List.Forall_forall in Hx |- *. intros k Hk.
  apply List.filter_In in Hk as [Hk Hfk].
  specialize (Hx k Hk). apply before_spec in Hx.
  rewrite (Hf x Ex), (Hf k Hfk) in Hx.
  destruct Hx as [Hx|[_ Hx]]; [lia|].
  unfold lex_lt. destruct (String.compare x k) eqn:E; try congruence.
  apply String.compare_eq_iff in E. subst.
  apply list_elem_of_In in Hk. contradiction.
Qed.

End SortFacts.

(** ** The combo normalizer *)

(** C3. For every duplicate-free combo of (non-empty) key names, the
    normalizer puts all the modifier or named keys (length > 1) first, in
    lexicographic order, then all the character keys (length 1), in
    lexicographic order, and joins them with '+'; the combo of "k" and
    "ctrl" becomes "ctrl+k". *)
Theorem normalizeCombo_modifiers_then_characters (combo : list string) :
  NoDup combo ->
  Forall (fun k => 1 <= String.length k) combo ->
  (exists mods chars : list string,
      mods ≡ₚ List.filter is_modifier combo /\
      chars ≡ₚ List.filter is_character combo /\
      StronglySorted lex_lt mods /\
      StronglySorted lex_lt chars /\
      sortCombo combo = mods ++ chars /\
      normalizeCombo combo = join "+" (mods ++ chars)) /\
  normalizeCombo ["k"; "ctrl"] = "ctrl+k".
Proof.
  intros Hnd Hne. split; [|reflexivity].
  pose proof (sortCombo_StronglySorted combo) as Hs.
  pose proof (sortCombo_NoDup combo Hnd) as Hnd'.
  assert (Forall (fun k => 1 <= String.length k) (sortCombo combo)) as Hne'
    by now rewrite sortCombo_perm.
  exists (List.filter is_modifier (sortCombo combo)),
    (List.filter is_character (sortCombo combo)).
  repeat split.
  - apply filter_perm, sortCombo_perm.
  - apply filter_perm, sortCombo_perm.
  - apply (sorted_class_lex is_modifier 1); auto.
    intros k. apply rank_modifier.
  - apply (sorted_class_lex is_character 2); auto.
    intros k. apply rank_character.
  - now apply sorted_split.
  - unfold normalizeCombo. f_equal. now apply sorted_split.
Qed.

Lemma normalizeCombo_modifiers_then_characters_witness :
  (exists mods chars : list string,
      mods ≡ₚ List.filter is_modifier ["k"; "shift"; "a"; "ctrl"] /\
      chars ≡ₚ List.filter is_character ["k"; "shift"; "a"; "ctrl"] /\
      StronglySorted lex_lt mods /\
      StronglySorted lex_lt chars /\
      sortCombo ["k"; "shift"; "a"; "ctrl"] = mods ++ chars /\
      normalizeCombo ["k"; "shift"; "a"; "ctrl"] = join "+" (mods ++ chars)) /\
  normalizeCombo ["k"; "ctrl"] = "ctrl+k".
Proof.
  apply (normalizeCombo_modifiers_then_characters ["k"; "shift"; "a"; "ctrl"]).
  - apply NoDup_ListNoDup.
    repeat constructor; simpl; intuition discriminate.
  - repeat constructor.
Defined.

(** ** [_normalizeSequence] and the store *)

Section NormalizeFacts.

(** Two stores with the same arrays up to the order of their keys. *)
Local Abbreviation sameKeys := (Forall2 (fun k k' : list string => k ≡ₚ k')).

(** Two stores whose arrays normalize alike. *)
Local Abbreviation sameSorted :=
  (Forall2 (fun k k' : list string => sortCombo k = sortCombo k')).

Lemma sameKeys_refl (h : list (list string)) : sameKeys h h.
Proof. induction h; constructor; auto. Qed.

Lemma sameSorted_refl (h : list (list string)) : sameSorted h h.
Proof. induction h; constructor; auto. Qed.

Lemma sameKeys_sort_in_place (h : list (list string)) l keys :
  h !! l = Some keys -> sameKeys h (<[l := sortCombo keys]> h).
Proof.
  intros Hl. rewrite <- (list_insert_id h l keys Hl) at 1.
  apply Forall2_insert; [apply sameKeys_refl|].
  symmetry. apply sortCombo_perm.
Qed.

Lemma sameKeys_trans (h1 h2 h3 : list (list string)) :
  sameKeys h1 h2 -> sameKeys h2 h3 -> sameKeys h1 h3.
Proof.
  intros H12. revert h3.
  induction H12 as [|a b h1 h2 Hab _ IH]; intros h3 H23;
    inversion H23; subst; constructor; eauto.
  etransitivity; eauto.
Qed.

(** The loop only reorders keys inside arrays of the store. *)
Lemma normalize_sameKeys (q : list elem) (h : list (list string)) :
  sameKeys h (_normalizeSequence q h).2.2.
Proof.
  revert h. induction q as [|[l|str] rest IH]; intros h; simpl;
    try apply sameKeys_refl.
  destruct (h !! l) as [keys|] eqn:Hl; simpl; [|apply sameKeys_refl].
  specialize (IH (<[l := sortCombo keys]> h)).
  destruct (_normalizeSequence rest (<[l := sortCombo keys]> h))
    as [r [rest' h']]. simpl in *.
  eapply sameKeys_trans; [|exact IH]. now apply sameKeys_sort_in_place.
Qed.

Lemma sameKeys_length (h h' : list (list string)) :
  sameKeys h h' -> length h' = length h.
Proof. intros H. symmetry. eapply Forall2_length, H. Qed.

Lemma sameKeys_NoDup (h h' : list (list string)) :
  sameKeys h h' -> Forall NoDup h -> Forall NoDup h'.
Proof.
  induction 1 as [|k k' h h' Hk _ IH]; intros Hnd; [constructor|].
  inversion Hnd; subst. constructor; auto. now rewrite <- Hk.
Qed.

Lemma sameKeys_lookup (h h' : list (list string)) l :
  sameKeys h h' -> default [] (h' !! l) ≡ₚ default [] (h !! l).
Proof.
  intros H. destruct (h' !! l) as [k'|] eqn:E; simpl.
  - destruct (Forall2_lookup_r _ _ _ _ _ H E) as (k & -> & Hk). now simpl.
  - apply lookup_ge_None in E. rewrite (sameKeys_length _ _ H) in E.
    apply lookup_ge_None in E. now rewrite E.
Qed.

(** A sequence of key arrays is normalized to the joined strings of its
    combos, whatever the order in which the store holds their keys. *)
Lemma normalize_raw (q : list elem) :
  forall (h0 h : list (list string)) (combos : list (list string)),
    sameSorted h0 h ->
    combosOf h0 q = Some combos ->
    exists h',
      _normalizeSequence q h =
        (Ok tt, (map (fun keys => Joined (normalizeCombo keys)) combos, h')) /\
      sameSorted h0 h'.
Proof.
  induction q as [|[l|str] rest IH]; intros h0 h combos Hs Hc; simpl in *.
  - inversion Hc; subst. eauto.
  - destruct (h0 !! l) as [keys0|] eqn:Hl0; [|discriminate].
    destruct (combosOf h0 rest) as [cs|] eqn:Hrest; [|discriminate].
    inversion Hc; subst. clear Hc.
    destruct (Forall2_lookup_l _ _ _ _ _ Hs Hl0) as (keys & Hl & Hk).
    rewrite Hl.
    assert (sameSorted h0 (<[l := sortCombo keys]> h)) as Hs'.
    { rewrite <- (list_insert_id h0 l keys0 Hl0).
      apply Forall2_insert; [assumption|].
      now rewrite sortCombo_idem. }
    destruct (IH h0 (<[l := sortCombo keys]> h) cs Hs' Hrest)
      as (h' & -> & Hh').
    exists h'. split; [|assumption]. simpl.
    unfold normalizeCombo. now rewrite Hk.
  - discriminate.
Qed.

(** Once an array is ordered, the loop keeps it ordered. *)
Lemma normalize_keeps_sorted (q : list elem) :
  forall (h : list (list string)) l keys,
    h !! l = Some keys -> Sorted before keys ->
    exists keys',
      (_normalizeSequence q h).2.2 !! l = Some keys' /\ Sorted before keys'.
Proof.
  induction q as [|[l0|str] rest IH]; intros h l keys Hl Hk; simpl; eauto.
  destruct (h !! l0) as [keys0|] eqn:Hl0; simpl; eauto.
  assert (exists k1, <[l0 := sortCombo keys0]> h !! l = Some k1 /\
                     Sorted before k1) as (k1 & Hk1 & Hs1).
  { destruct (decide (l0 = l)) as [->|Hne].
    - exists (sortCombo keys0). split; [|apply sortCombo_Sorted].
      apply list_lookup_insert_eq. eapply lookup_lt_Some, Hl.
    - exists keys. split; [|assumption].
      now rewrite list_lookup_insert_ne. }
  specialize (IH _ _ _ Hk1 Hs1).
  destruct (_normalizeSequence rest (<[l0 := sortCombo keys0]> h))
    as [r [rest' h']]. exact IH.
Qed.

(** After the loop every array the sequence refers to is ordered. *)
Lemma normalize_sorts (q : list elem) :
  forall (h : list (list string)) l,
    Forall (rawElem h) q -> Combo l ∈ q ->
    exists keys',
      (_normalizeSequence q h).2.2 !! l = Some keys' /\ Sorted before keys'.
Proof.
  induction q as [|x rest IH]; intros h l Hraw Hin.
  - inversion Hin.
  - inversion Hraw as [|? ? Hx Hrest]; subst.
    destruct x as [l0|str]; [|destruct Hx]. simpl in Hx |- *.
    destruct (lookup_lt_is_Some_2 h l0 Hx) as [keys0 Hl0]. rewrite Hl0.
    pose proof (normalize_keeps_sorted rest (<[l0 := sortCombo keys0]> h))
      as Hkeep.
    assert (Forall (rawElem (<[l0 := sortCombo keys0]> h)) rest) as Hrest'.
    { eapply Forall_impl; [exact Hrest|].
      intros [l1|s1]; simpl; [|auto]. now rewrite length_insert. }
    specialize (IH (<[l0 := sortCombo keys0]> h)).
    destruct (_normalizeSequence rest (<[l0 := sortCombo keys0]> h))
      as [r [rest' h']]. simpl in *.
    apply elem_of_cons in Hin as [Heq|Hin].
    + inversion Heq; subst.
      apply (Hkeep l0 (sortCombo keys0));
        [now apply list_lookup_insert_eq|apply sortCombo_Sorted].
    + now apply IH.
Qed.

(** Where every array is already ordered the loop changes no array. *)
Lemma normalize_sorted_store (q : list elem) :
  forall (h : list (list string)),
    (forall l keys, Combo l ∈ q -> h !! l = Some keys -> Sorted before keys) ->
    (_normalizeSequence q h).2.2 = h.
Proof.
  induction q as [|[l0|str] rest IH]; intros h Hsorted; simpl; auto.
  destruct (h !! l0) as [keys0|] eqn:Hl0; simpl; auto.
  assert (sortCombo keys0 = keys0) as Hid.
  { apply sortCombo_id, (Hsorted l0); [left|assumption]. }
  rewrite Hid, (list_insert_id h l0 keys0 Hl0).
  specialize (IH h).
  destruct (_normalizeSequence rest h) as [r [rest' h']]. simpl in *.
  apply IH. intros l keys Hin. apply Hsorted. now right.
Qed.

Lemma combosOf_raw (h : list (list string)) (q : list elem) :
  Forall (rawElem h) q <-> is_Some (combosOf h q).
Proof.
  induction q as [|[l|str] rest IH]; simpl.
  - split; [eauto|constructor].
  - split.
    + intros H. inversion H as [|? ? Hl Hrest]; subst. simpl in Hl.
      destruct (lookup_lt_is_Some_2 h l Hl) as [keys ->].
      apply IH in Hrest as [cs ->]. eauto.
    + intros [cs H]. destruct (h !! l) as [keys|] eqn:Hl; [|discriminate].
      destruct (combosOf h rest) as [cs'|] eqn:Hr; [|discriminate].
      constructor; [simpl; eapply lookup_lt_Some, Hl|].
      apply IH. eauto.
  - split; [|intros [cs H]; discriminate].
    intros H. inversion H as [|? ? Hx _]; subst. destruct Hx.
Qed.

End NormalizeFacts.

(** C8 (as stated, refuted). Normalizing the output of a normalization does
    not give the same result: the output holds strings, which have no
    [sort] method, and the second call throws. *)
Lemma normalize_twice_throws :
  ~ (forall (q q' : list elem) (h h' : list (list string)),
        _normalizeSequence q h = (Ok tt, (q', h')) ->
        _normalizeSequence q' h' = (Ok tt, (q', h'))).
Proof.
  intros H.
  specialize (H [Combo 0] [Joined "ctrl+k"] [["k"; "ctrl"]] [["ctrl"; "k"]]
                eq_refl).
  vm_compute in H. discriminate H.
Qed.

(** C8 (amended). Normalization is idempotent on key arrays: normalizing
    again a sequence of key arrays that a first normalization has sorted in
    place gives the same strings in the same order and changes no array, and
    sorting a sorted combo leaves it as it is.  It cannot be applied to its
    own output: on a sequence that starts with a joined string the call
    throws a TypeError and changes nothing. *)
Theorem normalize_again_same_strings (q : list elem)
  (h : list (list string)) :
  Forall (rawElem h) q ->
  (exists (out : list elem) (h' : list (list string)),
      _normalizeSequence q h = (Ok tt, (out, h')) /\
      _normalizeSequence q h' = (Ok tt, (out, h'))) /\
  (forall combo : list string,
      sortCombo (sortCombo combo) = sortCombo combo /\
      normalizeCombo (sortCombo combo) = normalizeCombo combo) /\
  (forall (str : string) (rest : list elem) (h1 : list (list string)),
      _normalizeSequence (Joined str :: rest) h1 =
        (Throw TypeError, (Joined str :: rest, h1))).
Proof.
  intros Hraw. split; [|split].
  - destruct (proj1 (combosOf_raw h q) Hraw) as [combos Hc].
    destruct (normalize_raw q h h combos (sameSorted_refl h) Hc)
      as (h' & E1 & Hs1).
    destruct (normalize_raw q h h' combos Hs1 Hc) as (h'' & E2 & _).
    exists (map (fun keys => Joined (normalizeCombo keys)) combos), h'.
    split; [assumption|]. rewrite E2. do 3 f_equal.
    pose proof (normalize_sorted_store q h') as Hst. rewrite E2 in Hst.
    apply Hst. intros l keys Hin Hl.
    destruct (normalize_sorts q h l Hraw Hin) as (keys' & Hl' & Hsorted).
    rewrite E1 in Hl'. simpl in Hl'. congruence.
  - intros combo. split; [apply sortCombo_idem|].
    unfold normalizeCombo. now rewrite sortCombo_idem.
  - reflexivity.
Qed.

Lemma normalize_again_same_strings_witness :
  (exists (out : list elem) (h' : list (list string)),
      _normalizeSequence [Combo 1; Combo 0] [["k"; "ctrl"]; ["b"; "a"]] =
        (Ok tt, (out, h')) /\
      _normalizeSequence [Combo 1; Combo 0] h' = (Ok tt, (out, h'))) /\
  (forall combo : list string,
      sortCombo (sortCombo combo) = sortCombo combo /\
      normalizeCombo (sortCombo combo) = normalizeCombo combo) /\
  (forall (str : string) (rest : list elem) (h1 : list (list string)),
      _normalizeSequence (Joined str :: rest) h1 =
        (Throw TypeError, (Joined str :: rest, h1))).
Proof.
  apply (normalize_again_same_strings [Combo 1; Combo 0]
           [["k"; "ctrl"]; ["b"; "a"]]).
  repeat constructor.
Defined.

(** ** Running the recorder *)

Section Execution.

Lemma bind_run {A B} (m : M A) (k : A -> M B) (s : state) :
  bind m k s =
    match m s with
    | (Ok a, s') => k a s'
    | (Throw e, s') => (Throw e, s')
    end.
Proof. reflexivity. Qed.

(** A property kept by both parts of a sequencing is kept by the whole,
    also when the first part throws. *)
Lemma bind_keeps {A B} (P : state -> Prop) (m : M A) (k : A -> M B) :
  (forall s, P s -> P (m s).2) ->
  (forall a s, P s -> P (k a s).2) ->
  forall s, P s -> P (bind m k s).2.
Proof.
  intros Hm Hk s Hs. unfold bind. specialize (Hm s Hs).
  destruct (m s) as [[a|e] s']; simpl in *; auto.
Qed.

Lemma for_each_keeps {A} (P : state -> Prop) (body : A -> M unit) :
  (forall a s, P s -> P (body a s).2) ->
  forall l s, P s -> P (for_each body l s).2.
Proof.
  intros Hb l. induction l as [|x r IH]; intros s Hs; simpl; [assumption|].
  apply bind_keeps; auto.
Qed.

Lemma existsb_eqb_false (key : string) (keys : list string) :
  existsb (String.eqb key) keys = false -> key ∉ keys.
Proof.
  intros H Hin. apply list_elem_of_In in Hin.
  assert (existsb (String.eqb key) keys = true); [|congruence].
  apply existsb_exists. exists key. split; [assumption|apply String.eqb_refl].
Qed.

Lemma existsb_eqb_true (key : string) (keys : list string) :
  key ∈ keys -> existsb (String.eqb key) keys = true.
Proof.
  intros Hin. apply list_elem_of_In in Hin.
  apply existsb_exists. exists key. split; [assumption|apply String.eqb_refl].
Qed.

(** [_recordCurrentCombo] never throws; the session it leaves. *)
Lemma recordCurrentCombo_run (s : state) :
  _recordCurrentCombo s =
    (Ok tt,
     set_recordTimer (Some (_recordTimeout s))
       (set_recordedCharacterKey false
          (set_currentRecordedKeys (length (heap s))
             (set_heap (heap s ++ [[]])
                (set_recordedSequence
                   (_recordedSequence s ++ [Combo (_currentRecordedKeys s)])
                   s))))).
Proof. reflexivity. Qed.

(** [_recordKey] by cases: the key is held already; it is pushed and nobody
    listens; it is pushed and the progress sequence is normalized. *)
Lemma recordKey_run (key : string) (s : state) :
  _recordKey key s =
    if existsb (String.eqb key) (currentKeys s) then (Ok tt, s)
    else
      let pushed :=
        set_heap (<[_currentRecordedKeys s := currentKeys s ++ [key]]> (heap s))
          s in
      let s2 :=
        if (String.length key =? 1)%nat
        then set_recordedCharacterKey true pushed else pushed in
      match _recordProgressCallback s with
      | None => (Ok tt, s2)
      | Some f =>
          match _normalizeSequence
                  (_recordedSequence s ++ [Combo (_currentRecordedKeys s)])
                  (heap s2) with
          | (Ok _, (seq', h')) =>
              (Ok tt, emit (ProgressCalled f seq') (set_heap h' s2))
          | (Throw e, (_, h')) => (Throw e, set_heap h' s2)
          end
      end.
Proof.
  unfold _recordKey. rewrite bind_run. unfold gets at 1.
  destruct (existsb (String.eqb key) (currentKeys s)); [reflexivity|].
  destruct (String.length key =? 1)%nat;
    destruct (_recordProgressCallback s) as [f|] eqn:Hp;
    cbv [bind modify when gets ret normalizeLocal reportProgress set_heap
           emit set_recordedCharacterKey]; simpl;
    rewrite ?Hp; simpl; try reflexivity;
    match goal with
    | |- context [_normalizeSequence ?q ?h] =>
        destruct (_normalizeSequence q h) as [[[]|e] [q' h']]; reflexivity
    end.
Qed.

End Execution.

(** ** What every session satisfies *)

Section Invariant.

Local Abbreviation sameKeys := (Forall2 (fun k k' : list string => k ≡ₚ k')).

Lemma sessionInv_init (o : options) : sessionInv (init o).
Proof.
  constructor; simpl.
  - repeat constructor.
  - lia.
  - intros [d Hd]. discriminate.
  - intros (k & Hk & _). unfold currentKeys in Hk. simpl in Hk. inversion Hk.
Qed.

Lemma sessionInv_emit (x : effect) (s : state) :
  sessionInv s -> sessionInv (emit x s).
Proof. intros [H1 H2 H3 H4]. constructor; auto. Qed.

(** Reordering keys inside arrays keeps the invariant. *)
Lemma sessionInv_store (s : state) (h' : list (list string)) :
  sessionInv s -> sameKeys (heap s) h' -> sessionInv (set_heap h' s).
Proof.
  intros [H1 H2 H3 H4] Hh. constructor; simpl; auto.
  - eapply sameKeys_NoDup; eauto.
  - now rewrite (sameKeys_length _ _ Hh).
  - intros (k & Hk & Hlen). apply H4. exists k. split; [|assumption].
    unfold currentKeys in *. simpl in Hk.
    now rewrite (sameKeys_lookup _ _ (_currentRecordedKeys s) Hh) in Hk.
Qed.

Lemma currentKeys_NoDup (s : state) : sessionInv s -> NoDup (currentKeys s).
Proof.
  intros [H1 _ _ _]. unfold currentKeys.
  destruct (heap s !! _currentRecordedKeys s) as [keys|] eqn:E; simpl.
  - eapply Forall_lookup_1; eauto.
  - constructor.
Qed.

Lemma currentKeys_lookup (s : state) :
  sessionInv s -> heap s !! _currentRecordedKeys s = Some (currentKeys s).
Proof.
  intros [_ H2 _ _]. unfold currentKeys.
  destruct (lookup_lt_is_Some_2 _ _ H2) as [keys ->]. reflexivity.
Qed.

(** Pushing a key that is not held, and setting the flag for a character
    key, keeps the invariant. *)
Lemma sessionInv_push (key : string) (s : state) :
  sessionInv s -> key ∉ currentKeys s ->
  sessionInv
    (if (String.length key =? 1)%nat
     then set_recordedCharacterKey true
            (set_heap
               (<[_currentRecordedKeys s := currentKeys s ++ [key]]> (heap s))
               s)
     else set_heap
            (<[_currentRecordedKeys s := currentKeys s ++ [key]]> (heap s))
            s).
Proof.
  intros Hinv Hnotin.
  pose proof (currentKeys_NoDup s Hinv) as Hnd.
  destruct Hinv as [H1 H2 H3 H4].
  assert (NoDup (currentKeys s ++ [key])) as Hnd'.
  { apply NoDup_app. split; [assumption|]. split.
    - intros x Hx Hx'. apply list_elem_of_singleton in Hx'. now subst.
    - apply NoDup_singleton. }
  assert (forall b,
    holdsCharacterKey
      (set_recordedCharacterKey b
         (set_heap
            (<[_currentRecordedKeys s := currentKeys s ++ [key]]> (heap s)) s))
    -> holdsCharacterKey s \/ String.length key = 1) as Hheld.
  { intros b (k & Hk & Hlen). unfold currentKeys at 1 in Hk. simpl in Hk.
    rewrite list_lookup_insert_eq in Hk by assumption. simpl in Hk.
    apply elem_of_app in Hk as [Hk|Hk].
    - left. exists k. auto.
    - apply list_elem_of_singleton in Hk. subst. now right. }
  destruct (String.length key =? 1)%nat eqn:E.
  - constructor; simpl; auto.
    + now apply Forall_insert.
    + now rewrite length_insert.
  - constructor; simpl; auto.
    + now apply Forall_insert.
    + now rewrite length_insert.
    + intros Hh. destruct (Hheld (_recordedCharacterKey s)) as [Hs|Hs].
      * destruct Hh as (k & Hk & Hlen). exists k. split; [|assumption].
        unfold currentKeys in *. exact Hk.
      * now apply H4.
      * apply Nat.eqb_neq in E. contradiction.
Qed.

Lemma sessionInv_recordKey (key : string) (s : state) :
  sessionInv s -> sessionInv (_recordKey key s).2.
Proof.
  intros Hinv. rewrite recordKey_run.
  destruct (existsb (String.eqb key) (currentKeys s)) eqn:Ex; [assumption|].
  apply existsb_eqb_false in Ex.
  pose proof (sessionInv_push key s Hinv Ex) as Hpush.
  cbv zeta.
  set (s2 := if (String.length key =? 1)%nat then _ else _) in *.
  destruct (_recordProgressCallback s) as [f|]; [|assumption].
  pose proof (normalize_sameKeys
    (_recordedSequence s ++ [Combo (_currentRecordedKeys s)]) (heap s2)) as Hk.
  destruct (_normalizeSequence _ (heap s2)) as [[[]|e] [q' h']]; simpl in *.
  - apply sessionInv_emit. now apply sessionInv_store.
  - now apply sessionInv_store.
Qed.

Lemma recording_recordKey (key : string) (s : state) :
  recording (_recordKey key s).2 = recording s.
Proof.
  rewrite recordKey_run.
  destruct (existsb (String.eqb key) (currentKeys s)); [reflexivity|].
  cbv zeta.
  destruct (_recordProgressCallback s) as [f|];
    [destruct (_normalizeSequence _ _) as [[[]|e] [q' h']]|];
    destruct (String.length key =? 1)%nat; reflexivity.
Qed.

Lemma sessionInv_recordCurrentCombo (s : state) :
  sessionInv s -> recording s = true ->
  sessionInv (_recordCurrentCombo s).2.
Proof.
  intros [H1 H2 H3 H4] Hrec. rewrite recordCurrentCombo_run.
  constructor; simpl; auto.
  - apply Forall_app. split; [assumption|]. repeat constructor.
  - rewrite length_app. simpl. lia.
  - intros (k & Hk & _). unfold currentKeys in Hk. simpl in Hk.
    rewrite lookup_app_r in Hk by lia.
    rewrite Nat.sub_diag in Hk. simpl in Hk. inversion Hk.
Qed.

(** [_finishRecording], run once the timer that fired is spent. *)
Lemma sessionInv_finishRecording (s : state) :
  sessionInv s -> _recordTimer s = None ->
  sessionInv (_finishRecording s).2.
Proof.
  intros Hinv Ht.
  assert (forall s1 : state,
    Forall NoDup (heap s1) -> _recordTimer s1 = None ->
    forall r : result unit,
    sessionInv
      (match r with
       | Ok _ =>
           (modify (set_recordedSequence []) ;;
            modify (set_recordedSequenceCallback None) ;;
            l <- alloc_empty ;; modify (set_currentRecordedKeys l)) s1
       | Throw e => (Throw e, s1)
       end).2 \/ r <> Ok tt) as Hreset.
  { intros s1 Hnd Hnone [[]|e]; [left|right; discriminate].
    cbv [bind modify alloc_empty]. simpl. constructor; simpl.
    - apply Forall_app. split; [assumption|]. repeat constructor.
    - rewrite length_app. simpl. lia.
    - rewrite Hnone. intros [d Hd]. discriminate.
    - intros (k & Hk & _). unfold currentKeys in Hk. simpl in Hk.
      rewrite lookup_app_r in Hk by lia.
      rewrite Nat.sub_diag in Hk. simpl in Hk. inversion Hk. }
  unfold _finishRecording. rewrite bind_run. unfold gets at 1.
  destruct (_recordedSequenceCallback s) as [callback|] eqn:Hcb.
  - pose proof (normalize_sameKeys (_recordedSequence s) (heap s)) as Hk.
    rewrite !bind_run. unfold normalizeRecorded.
    destruct (_normalizeSequence (_recordedSequence s) (heap s))
      as [[[]|e] [q' h']]; simpl in Hk.
    + pose proof (sessionInv_store s h' Hinv Hk) as [N1 N2 N3 N4].
      destruct callback as [f|].
      * destruct (Hreset
          (emit (CompleteCalled f q')
             (set_recording false
                (set_recordedSequence q' (set_heap h' s)))) N1 Ht (Ok tt))
          as [H|H]; [exact H|congruence].
      * simpl. constructor; simpl; auto. rewrite Ht. intros [d Hd].
        discriminate.
    + destruct (sessionInv_store s h' Hinv Hk) as [N1 N2 N3 N4].
      constructor; auto.
  - destruct (Hreset s (inv_nodup s Hinv) Ht (Ok tt)) as [H|H];
      [exact H|congruence].
Qed.

End Invariant.

Section InvariantRun.

(** What [_recordKey] leaves alone: everything but the store, the flag and
    the trace; the store keeps its size and the trace only grows by progress
    calls. *)
Lemma recordKey_frame (key : string) (s : state) :
  let s' := (_recordKey key s).2 in
  _recordedSequence s' = _recordedSequence s /\
  _recordedSequenceCallback s' = _recordedSequenceCallback s /\
  _currentRecordedKeys s' = _currentRecordedKeys s /\
  _recordTimer s' = _recordTimer s /\
  length (heap s') = length (heap s) /\
  List.filter isComplete (trace s') = List.filter isComplete (trace s).
Proof.
  cbv zeta. rewrite recordKey_run.
  destruct (existsb (String.eqb key) (currentKeys s)); [auto 10|].
  cbv zeta.
  set (s2 := if (String.length key =? 1)%nat then _ else _).
  assert (_recordedSequence s2 = _recordedSequence s /\
          _recordedSequenceCallback s2 = _recordedSequenceCallback s /\
          _currentRecordedKeys s2 = _currentRecordedKeys s /\
          _recordTimer s2 = _recordTimer s /\
          length (heap s2) = length (heap s) /\
          trace s2 = trace s) as (F1 & F2 & F3 & F4 & F5 & F6).
  { subst s2. destruct (String.length key =? 1)%nat; simpl;
      rewrite length_insert; auto 10. }
  destruct (_recordProgressCallback s) as [f|].
  - pose proof (normalize_sameKeys
      (_recordedSequence s ++ [Combo (_currentRecordedKeys s)]) (heap s2))
      as Hk.
    destruct (_normalizeSequence _ (heap s2)) as [[[]|e] [q' h']];
      simpl in *; rewrite (sameKeys_length _ _ Hk), ?F6; repeat split; auto.
    rewrite List.filter_app. simpl. now rewrite app_nil_r.
  - cbn [snd]. rewrite F6. auto 10.
Qed.

(** A property of sessions that the pieces of [_handleKey] keep while
    recording is kept by [_handleKey]. *)
Lemma handleKey_keeps (P : state -> Prop) :
  (forall x s, P s -> P (emit x s)) ->
  (forall k s, P s -> recording s = true -> P (_recordKey k s).2) ->
  (forall s, P s -> recording s = true -> P (_recordCurrentCombo s).2) ->
  forall character modifiers e s,
    P s -> P (_handleKey character modifiers e s).2.
Proof.
  intros Hemit Hkey0 Hclose0 character modifiers e s Hinv.
  unfold _handleKey. rewrite bind_run. unfold gets at 1.
  destruct (truthy (_noRepeat s) && repeat e); [exact Hinv|].
  rewrite bind_run. unfold gets at 1.
  destruct (recording s) eqn:Hrec; simpl negb; cbv iota;
    [|now apply Hemit].
  set (Q := fun s : state => P s /\ recording s = true).
  assert (forall k s, Q s -> Q (_recordKey k s).2) as Hkey.
  { intros k s1 [H1 H2]. split; [now apply Hkey0|].
    now rewrite recording_recordKey. }
  assert (forall s, Q s -> Q (_recordCurrentCombo s).2) as Hclose.
  { intros s1 [H1 H2]. split; [now apply Hclose0|].
    now rewrite recordCurrentCombo_run. }
  assert (forall b m, (forall s, Q s -> Q (m s).2) ->
                      forall s, Q s -> Q (when b m s).2) as Hwhen.
  { intros [] m Hm s1 Hs; simpl; auto. }
  enough (Q (bind (gets _preventDefault) (fun pd =>
             when (truthy pd) (modify (emit (DefaultPrevented e))) ;;
             match type e with
             | keydown =>
                 flag <- gets _recordedCharacterKey ;;
                 when ((String.length character =? 1)%nat && flag)
                   _recordCurrentCombo ;;
                 for_each _recordKey modifiers ;;
                 _recordKey character
             | keyup =>
                 keys <- gets currentKeys ;;
                 when (0 <? length keys)%nat _recordCurrentCombo
             | keypress => ret tt
             end) s).2) as [H _] by exact H.
  apply (bind_keeps Q); [auto| |now split]. intros pd.
  apply (bind_keeps Q).
  { apply Hwhen. intros s1 [H1 H2]. split; [now apply Hemit|auto]. }
  intros _. destruct (type e).
  - apply (bind_keeps Q); [auto|]. intros flag.
    apply (bind_keeps Q); [now apply Hwhen|]. intros _.
    apply (bind_keeps Q); [|auto]. intros s1. now apply for_each_keeps.
  - apply (bind_keeps Q); [auto|]. intros keys. now apply Hwhen.
  - auto.
Qed.

Lemma sessionInv_handleKey (character : string) (modifiers : list string)
  (e : KeyEvent) (s : state) :
  sessionInv s -> sessionInv (_handleKey character modifiers e s).2.
Proof.
  apply handleKey_keeps.
  - apply sessionInv_emit.
  - intros k s1 H _. now apply sessionInv_recordKey.
  - apply sessionInv_recordCurrentCombo.
Qed.

Lemma sessionInv_record callback t p n progress (s : state) :
  sessionInv s -> sessionInv (record callback t p n progress s).2.
Proof.
  intros [H1 H2 H3 H4]. constructor; auto.
Qed.

Lemma sessionInv_fireTimer (s : state) :
  sessionInv s -> sessionInv (fireTimer s).2.
Proof.
  intros Hinv. unfold fireTimer. rewrite bind_run. unfold gets at 1.
  destruct (_recordTimer s) as [d|] eqn:Ht; [|exact Hinv].
  rewrite bind_run. unfold modify at 1.
  apply sessionInv_finishRecording; [|reflexivity].
  destruct Hinv as [H1 H2 H3 H4]. constructor; auto.
Qed.

Lemma sessionInv_step (i : input) (s : state) :
  sessionInv s -> sessionInv (step i s).2.
Proof.
  destruct i; simpl.
  - apply sessionInv_record.
  - apply sessionInv_handleKey.
  - apply sessionInv_fireTimer.
Qed.

Lemma run_cons (i : input) (inputs : list input) (s : state) :
  run (i :: inputs) s = run inputs (step i s).2.
Proof. reflexivity. Qed.

Lemma run_snoc (inputs : list input) (i : input) (s : state) :
  run (inputs ++ [i]) s = (step i (run inputs s)).2.
Proof. unfold run. now rewrite fold_left_app. Qed.

Lemma sessionInv_run (inputs : list input) (s : state) :
  sessionInv s -> sessionInv (run inputs s).
Proof.
  revert s. induction inputs as [|i r IH]; intros s Hs; [exact Hs|].
  rewrite run_cons. now apply IH, sessionInv_step.
Qed.

End InvariantRun.

(** ** Sessions whose completion callbacks are functions *)

Section RawSessions.

Lemma rawElem_mono (h h' : list (list string)) (q : list elem) :
  length h <= length h' -> Forall (rawElem h) q -> Forall (rawElem h') q.
Proof.
  intros Hle H. eapply Forall_impl; [exact H|].
  intros [l|str]; simpl; [lia|auto].
Qed.

Lemma rawInv_init (o : options) : rawInv (init o).
Proof.
  constructor; simpl; [constructor|discriminate|discriminate].
Qed.

Lemma rawInv_emit (x : effect) (s : state) : rawInv s -> rawInv (emit x s).
Proof. intros [H1 H2 H3]. constructor; auto. Qed.

Lemma rawInv_recordKey (key : string) (s : state) :
  rawInv s -> rawInv (_recordKey key s).2.
Proof.
  intros [H1 H2 H3].
  destruct (recordKey_frame key s) as (F1 & F2 & F3 & F4 & F5 & F6).
  constructor.
  - rewrite F1. eapply rawElem_mono; [|exact H1]. now rewrite F5.
  - now rewrite F2.
  - rewrite F2, recording_recordKey. exact H3.
Qed.

Lemma rawInv_recordCurrentCombo (s : state) :
  sessionInv s -> rawInv s -> rawInv (_recordCurrentCombo s).2.
Proof.
  intros [_ Hcur _ _] [H1 H2 H3]. rewrite recordCurrentCombo_run.
  constructor; simpl; auto.
  assert (length (heap s) <= length (heap s ++ [[]])) as Hle
    by (rewrite length_app; lia).
  apply Forall_app. split.
  - eapply rawElem_mono; eauto.
  - constructor; [|constructor]. simpl. rewrite length_app. simpl. lia.
Qed.

(** The timer fires on a session with a callback and a sequence of key
    arrays: the callback gets the normalized sequence and the session is
    reset. *)
Lemma fireTimer_delivers (s : state) (d : value) (f : fn)
  (combos : list (list string)) :
  _recordTimer s = Some d ->
  _recordedSequenceCallback s = Some (Some f) ->
  combosOf (heap s) (_recordedSequence s) = Some combos ->
  exists s',
    fireTimer s = (Ok tt, s') /\
    trace s' =
      trace s ++
      [CompleteCalled f (map (fun keys => Joined (normalizeCombo keys)) combos)]
    /\
    _recordedSequence s' = [] /\
    currentKeys s' = [] /\
    _recordedSequenceCallback s' = None /\
    recording s' = false /\
    _recordTimer s' = None /\
    length (heap s) <= length (heap s').
Proof.
  intros Ht Hcb Hc.
  destruct (normalize_raw _ (heap s) (heap s) combos
              (sameSorted_refl _) Hc) as (h' & E & Hs).
  assert (length h' = length (heap s)) as Hlen
    by (symmetry; eapply Forall2_length, Hs).
  unfold fireTimer. rewrite bind_run. unfold gets at 1. rewrite Ht.
  rewrite bind_run. unfold modify at 1.
  unfold _finishRecording. rewrite bind_run. unfold gets at 1.
  cbn [_recordedSequenceCallback set_recordTimer]. rewrite Hcb.
  cbv [bind normalizeRecorded].
  change (_recordedSequence (set_recordTimer None s))
    with (_recordedSequence s).
  change (heap (set_recordTimer None s)) with (heap s). rewrite E.
  cbv [modify gets alloc_empty]. simpl.
  eexists. split; [reflexivity|]. simpl. repeat split; auto.
  - unfold currentKeys. simpl. rewrite lookup_app_r by lia.
    now rewrite Nat.sub_diag.
  - rewrite length_app, Hlen. lia.
Qed.

(** The two invariants together, along a run of callable inputs. *)
Lemma rawInv_step (i : input) (s : state) :
  callableInput i -> sessionInv s /\ rawInv s ->
  sessionInv (step i s).2 /\ rawInv (step i s).2.
Proof.
  intros Hi [Hs Hr]. split; [now apply sessionInv_step|].
  destruct i as [cb t p n pcb|c m e|]; simpl.
  - destruct cb as [f|]; [|destruct Hi].
    destruct Hr as [H1 H2 H3]. constructor; simpl; auto.
  - enough (sessionInv (_handleKey c m e s).2 /\ rawInv (_handleKey c m e s).2)
      as [_ H] by exact H.
    apply (handleKey_keeps (fun s => sessionInv s /\ rawInv s)); auto.
    + intros x s1 [A B]. split; [now apply sessionInv_emit|].
      now apply rawInv_emit.
    + intros k s1 [A B] _. split; [now apply sessionInv_recordKey|].
      now apply rawInv_recordKey.
    + intros s1 [A B] Hrec. split; [now apply sessionInv_recordCurrentCombo|].
      now apply rawInv_recordCurrentCombo.
  - destruct (_recordTimer s) as [d|] eqn:Ht.
    + assert (recording s = true) as Hrec by (apply Hs; eauto).
      destruct Hr as [H1 H2 H3].
      destruct (H3 Hrec) as [[f|] Hcb]; [|congruence].
      destruct (proj1 (combosOf_raw _ _) H1) as [combos Hc].
      destruct (fireTimer_delivers s d f combos Ht Hcb Hc)
        as (s' & -> & _ & Hq & _ & Hcb' & Hrec' & _).
      constructor; simpl.
      * rewrite Hq. constructor.
      * rewrite Hcb'. discriminate.
      * rewrite Hrec'. discriminate.
    + unfold fireTimer. rewrite bind_run. unfold gets at 1. rewrite Ht.
      exact Hr.
Qed.

Lemma rawInv_run (inputs : list input) (s : state) :
  Forall callableInput inputs -> sessionInv s /\ rawInv s ->
  sessionInv (run inputs s) /\ rawInv (run inputs s).
Proof.
  revert s. induction inputs as [|i r IH]; intros s Hall Hs; [exact Hs|].
  inversion Hall; subst. rewrite run_cons. apply IH; [assumption|].
  now apply rawInv_step.
Qed.

End RawSessions.

(** ** Completion *)

(** Why the completion callback has to be a function: [record()] without
    one registers the wrapper all the same; when the timer fires the
    sequence is normalized, the recording flag is cleared, and the call of
    the missing callback throws, so the reset of lines 218-220 is skipped
    and the sequence keeps its joined strings. *)
Lemma missing_callback_throws :
  step TimerFires
    (run [CallRecord None VUndefined VUndefined VUndefined None;
          KeyEventArrives "a" [] down; KeyEventArrives "a" [] up]
       (init noOptions)) =
  (Throw TypeError,
   set_recording false
     (set_recordedSequence [Joined "a"]
        (set_recordTimer None
           (run [CallRecord None VUndefined VUndefined VUndefined None;
                 KeyEventArrives "a" [] down; KeyEventArrives "a" [] up]
              (init noOptions))))).
Proof. vm_compute. reflexivity. Qed.



(** ** The accumulator *)

Lemma recordKey_held (key : string) (s : state) :
  key ∈ currentKeys s -> _recordKey key s = (Ok tt, s).
Proof.
  intros Hin. rewrite recordKey_run. now rewrite existsb_eqb_true.
Qed.




(** ** Options of [record] *)

Lemma recordKey_config (key : string) (s : state) :
  _config (_recordKey key s).2 = _config s.
Proof.
  rewrite recordKey_run.
  destruct (existsb (String.eqb key) (currentKeys s)); [reflexivity|].
  cbv zeta.
  destruct (_recordProgressCallback s) as [f|];
    [destruct (_normalizeSequence _ _) as [[[]|e] [q' h']]|];
    destruct (String.length key =? 1)%nat; reflexivity.
Qed.

Lemma finishRecording_config (s : state) :
  _config (_finishRecording s).2 = _config s.
Proof.
  unfold _finishRecording. rewrite bind_run. unfold gets at 1.
  destruct (_recordedSequenceCallback s) as [[f|]|];
    cbv [bind normalizeRecorded modify gets alloc_empty throw ret];
    try destruct (_normalizeSequence _ _) as [[[]|e] [q' h']]; reflexivity.
Qed.

Lemma step_config (i : input) (s : state) : _config (step i s).2 = _config s.
Proof.
  destruct i as [cb t p n pcb|c m e|]; simpl.
  - reflexivity.
  - apply (handleKey_keeps (fun s' => _config s' = _config s)); auto.
    + intros k s1 H _. now rewrite recordKey_config.
  - unfold fireTimer. rewrite bind_run. unfold gets at 1.
    destruct (_recordTimer s); [|reflexivity].
    rewrite bind_run. unfold modify at 1. now rewrite finishRecording_config.
Qed.

Lemma run_config (inputs : list input) (s : state) :
  _config (run inputs s) = _config s.
Proof.
  revert s. induction inputs as [|i r IH]; intros s; [reflexivity|].
  now rewrite run_cons, IH, step_config.
Qed.

(** C6. In every call of [record], a falsy argument (0, false, the empty
    string, null, undefined) for [timeout], [preventDefault] or [noRepeat]
    resolves to the value of the configuration merged at construction time,
    whatever the other arguments are, and not to the argument; an explicit
    timeout of 0 resolves to the configured timeout, 1000 when none was
    configured. *)
Theorem record_falsy_argument_falls_back (o : options)
  (inputs : list input) (callback progress : option fn) (v : value) :
  In v [VNum 0; VBool false; VStr ""; VNull; VUndefined] ->
  (forall p n : value,
      _recordTimeout
        (record callback v p n progress (run inputs (init o))).2 =
      timeout (mergeConfig o)) /\
  (forall t n : value,
      _preventDefault
        (record callback t v n progress (run inputs (init o))).2 =
      preventDefault (mergeConfig o)) /\
  (forall t p : value,
      _noRepeat (record callback t p v progress (run inputs (init o))).2 =
      noRepeat (mergeConfig o)) /\
  (forall p n : value,
      _recordTimeout
        (record callback (VNum 0) p n progress (run inputs (init o))).2 =
      default (VNum 1000) (opt_timeout o)).
Proof.
  intros Hv.
  pose proof (run_config inputs (init o)) as Hc. simpl in Hc.
  assert (truthy v = false) as Hfalsy.
  { simpl in Hv. destruct Hv as [<-|[<-|[<-|[<-|[<-|[]]]]]]; reflexivity. }
  repeat split; intros; cbv [record bind modify]; simpl; rewrite !Hc;
    unfold or_else; rewrite ?Hfalsy; reflexivity.
Qed.

Lemma record_falsy_argument_falls_back_witness :
  (forall p n : value,
      _recordTimeout
        (record (Some (Fn 0)) (VBool false) p n None
           (run typeAB
              (init {| opt_timeout := Some (VNum 250);
                       opt_preventDefault := Some (VBool true);
                       opt_noRepeat := Some (VBool true) |}))).2 =
      timeout (mergeConfig {| opt_timeout := Some (VNum 250);
                              opt_preventDefault := Some (VBool true);
                              opt_noRepeat := Some (VBool true) |})) /\
  (forall t n : value,
      _preventDefault
        (record (Some (Fn 0)) t (VBool false) n None
           (run typeAB
              (init {| opt_timeout := Some (VNum 250);
                       opt_preventDefault := Some (VBool true);
                       opt_noRepeat := Some (VBool true) |}))).2 =
      preventDefault (mergeConfig {| opt_timeout := Some (VNum 250);
                                     opt_preventDefault := Some (VBool true);
                                     opt_noRepeat := Some (VBool true) |})) /\
  (forall t p : value,
      _noRepeat
        (record (Some (Fn 0)) t p (VBool false) None
           (run typeAB
              (init {| opt_timeout := Some (VNum 250);
                       opt_preventDefault := Some (VBool true);
                       opt_noRepeat := Some (VBool true) |}))).2 =
      noRepeat (mergeConfig {| opt_timeout := Some (VNum 250);
                               opt_preventDefault := Some (VBool true);
                               opt_noRepeat := Some (VBool true) |})) /\
  (forall p n : value,
      _recordTimeout
        (record (Some (Fn 0)) (VNum 0) p n None
           (run typeAB
              (init {| opt_timeout := Some (VNum 250);
                       opt_preventDefault := Some (VBool true);
                       opt_noRepeat := Some (VBool true) |}))).2 =
      default (VNum 1000) (Some (VNum 250))).
Proof.
  apply (record_falsy_argument_falls_back
           {| opt_timeout := Some (VNum 250);
              opt_preventDefault := Some (VBool true);
              opt_noRepeat := Some (VBool true) |}
           typeAB (Some (Fn 0)) None (VBool false)).
  simpl. auto.
Defined.

(** ** Combo boundaries *)

(** C2. For every keydown that is processed while recording and whose
    character is a single-character key: if the accumulator already holds a
    single-character key, the current combo is closed first, that is its key
    array is appended to the sequence, the accumulator and the character-key
    flag are cleared and the idle timer is restarted, and only then are the
    modifiers and the character added.  Pressing "a" and then "b" before "a"
    is released therefore records the two combos "a" and "b". *)
Theorem reentry_closes_combo_first (o : options) (inputs : list input)
  (s : state) (character : string) (modifiers : list string) (e : KeyEvent) :
  s = run inputs (init o) ->
  recording s = true ->
  truthy (_noRepeat s) && repeat e = false ->
  type e = keydown ->
  String.length character = 1 ->
  holdsCharacterKey s ->
  (exists closed : state,
      _recordCurrentCombo
        (if truthy (_preventDefault s)
         then emit (DefaultPrevented e) s else s) = (Ok tt, closed) /\
      _recordedSequence closed =
        _recordedSequence s ++ [Combo (_currentRecordedKeys s)] /\
      heap closed !! _currentRecordedKeys s = Some (currentKeys s) /\
      currentKeys closed = [] /\
      _recordedCharacterKey closed = false /\
      _recordTimer closed = Some (_recordTimeout s) /\
      _handleKey character modifiers e s =
        (for_each _recordKey modifiers ;; _recordKey character) closed) /\
  combosOf
    (heap (run [recordWith 0; KeyEventArrives "a" [] down;
                KeyEventArrives "b" [] down] (init noOptions)))
    (_recordedSequence
       (run [recordWith 0; KeyEventArrives "a" [] down;
             KeyEventArrives "b" [] down] (init noOptions))) = Some [["a"]] /\
  currentKeys
    (run [recordWith 0; KeyEventArrives "a" [] down;
          KeyEventArrives "b" [] down] (init noOptions)) = ["b"] /\
  trace (run (typeAB ++ [TimerFires]) (init noOptions)) =
    [CompleteCalled (Fn 0) [Joined "a"; Joined "b"]].
Proof.
  intros -> Hrec Hnr Hty Hlen Hheld.
  pose proof (sessionInv_run inputs (init o) (sessionInv_init o)) as Hinv.
  set (s := run inputs (init o)) in *.
  pose proof (inv_flag s Hinv Hheld) as Hflag.
  pose proof (currentKeys_lookup s Hinv) as Hcur.
  pose proof (inv_current s Hinv) as Hlt.
  split; [|repeat split; reflexivity].
  eexists. split; [apply recordCurrentCombo_run|].
  repeat split.
  - destruct (truthy (_preventDefault s)); reflexivity.
  - destruct (truthy (_preventDefault s)); simpl;
      now rewrite lookup_app_l by assumption.
  - unfold currentKeys.
    destruct (truthy (_preventDefault s)); simpl;
      rewrite lookup_app_r by lia; now rewrite Nat.sub_diag.
  - destruct (truthy (_preventDefault s)); reflexivity.
  - unfold _handleKey.
    rewrite (bind_run (gets _noRepeat)). unfold gets at 1. cbv beta iota.
    rewrite Hnr. cbv beta iota.
    rewrite (bind_run (gets recording)). unfold gets at 1. cbv beta iota.
    rewrite Hrec. cbn [negb]. cbv beta iota.
    rewrite (bind_run (gets _preventDefault)). unfold gets at 1.
    cbv beta iota. rewrite Hty.
    rewrite (bind_run (when _ _)).
    destruct (truthy (_preventDefault s)); simpl when;
      cbv [modify ret]; cbv beta iota;
      rewrite (bind_run (gets _recordedCharacterKey));
      unfold gets at 1; cbv beta iota;
      cbn [_recordedCharacterKey emit]; rewrite Hflag, Hlen;
      simpl when; rewrite (bind_run _recordCurrentCombo);
      rewrite recordCurrentCombo_run; reflexivity.
Qed.

Lemma reentry_closes_combo_first_witness :
  (exists closed : state,
      _recordCurrentCombo
        (if truthy
              (_preventDefault
                 (run [recordWith 0; KeyEventArrives "a" [] down]
                    (init noOptions)))
         then emit (DefaultPrevented down)
                (run [recordWith 0; KeyEventArrives "a" [] down]
                   (init noOptions))
         else run [recordWith 0; KeyEventArrives "a" [] down]
                (init noOptions)) = (Ok tt, closed) /\
      _recordedSequence closed = [] ++ [Combo 0] /\
      heap closed !! 0 = Some ["a"] /\
      currentKeys closed = [] /\
      _recordedCharacterKey closed = false /\
      _recordTimer closed = Some (VNum 1000) /\
      _handleKey "b" [] down
        (run [recordWith 0; KeyEventArrives "a" [] down] (init noOptions)) =
        (for_each _recordKey [] ;; _recordKey "b") closed) /\
  combosOf
    (heap (run [recordWith 0; KeyEventArrives "a" [] down;
                KeyEventArrives "b" [] down] (init noOptions)))
    (_recordedSequence
       (run [recordWith 0; KeyEventArrives "a" [] down;
             KeyEventArrives "b" [] down] (init noOptions))) = Some [["a"]] /\
  currentKeys
    (run [recordWith 0; KeyEventArrives "a" [] down;
          KeyEventArrives "b" [] down] (init noOptions)) = ["b"] /\
  trace (run (typeAB ++ [TimerFires]) (init noOptions)) =
    [CompleteCalled (Fn 0) [Joined "a"; Joined "b"]].
Proof.
  apply (reentry_closes_combo_first noOptions
           [recordWith 0; KeyEventArrives "a" [] down]
           (run [recordWith 0; KeyEventArrives "a" [] down] (init noOptions))
           "b" [] down); try reflexivity.
  exists "a". split; [vm_compute; left|reflexivity].
Defined.

(** ** The idle timer *)

Section Timer.

Lemma record_timer callback t p n progress (s : state) :
  _recordTimer (record callback t p n progress s).2 = _recordTimer s.
Proof. reflexivity. Qed.

(** An input that closes no combo schedules no timer, ends no recording and
    calls no completion callback. *)
Lemma step_no_boundary (i : input) (s : state) :
  _recordTimer s = None -> closesCombo i s = false ->
  _recordTimer (step i s).2 = None /\
  (recording s = true -> recording (step i s).2 = true) /\
  List.filter isComplete (trace (step i s).2) =
    List.filter isComplete (trace s).
Proof.
  intros Ht Hc. destruct i as [cb t p n pcb|c m e|]; cbn [step].
  - simpl. auto.
  - set (Q := fun s' : state =>
        _recordTimer s' = None /\ recording s' = recording s /\
        List.filter isComplete (trace s') = List.filter isComplete (trace s)).
    enough (Q (_handleKey c m e s).2) as (Q1 & Q2 & Q3)
      by (rewrite Q2; auto).
    assert (Q s) as Hs by (repeat split; auto).
    assert (forall k s1, Q s1 -> Q (_recordKey k s1).2) as Hkey.
    { intros k s1 (Q1 & Q2 & Q3).
      destruct (recordKey_frame k s1) as (_ & _ & _ & F4 & _ & F6).
      repeat split; [congruence|now rewrite recording_recordKey|congruence]. }
    assert (forall x, isComplete x = false -> Q (emit x s)) as Hemit.
    { intros x Hx. repeat split; auto. simpl.
      rewrite List.filter_app. simpl. rewrite Hx. now rewrite app_nil_r. }
    unfold _handleKey.
    rewrite (bind_run (gets _noRepeat)). unfold gets at 1. cbv beta iota.
    simpl in Hc.
    destruct (truthy (_noRepeat s) && repeat e); cbv beta iota; [exact Hs|].
    rewrite (bind_run (gets recording)). unfold gets at 1. cbv beta iota.
    destruct (recording s) eqn:Hrec; cbn [negb]; cbv beta iota;
      [|apply Hemit; reflexivity].
    simpl in Hc.
    rewrite (bind_run (gets _preventDefault)). unfold gets at 1.
    cbv beta iota. rewrite (bind_run (when _ _)).
    assert (exists s0,
      when (truthy (_preventDefault s)) (modify (emit (DefaultPrevented e))) s
        = (Ok tt, s0) /\ Q s0 /\
      _recordedCharacterKey s0 = _recordedCharacterKey s /\
      currentKeys s0 = currentKeys s) as (s0 & -> & Hs0 & Hf0 & Hk0).
    { destruct (truthy (_preventDefault s)); simpl; eexists;
        (split; [reflexivity|]); auto. }
    destruct (type e).
    + rewrite (bind_run (gets _recordedCharacterKey)). unfold gets at 1.
      cbv beta iota. rewrite Hf0, Hc. simpl when.
      rewrite (bind_run (ret tt)). unfold ret at 1. cbv beta iota.
      apply (bind_keeps Q); auto. intros s1. now apply for_each_keeps.
    + rewrite (bind_run (gets currentKeys)). unfold gets at 1.
      cbv beta iota. rewrite Hk0, Hc. exact Hs0.
    + exact Hs0.
  - cbv [fireTimer bind gets]. rewrite Ht. simpl. auto.
Qed.

Lemma run_no_boundary (inputs : list input) :
  forall s : state,
    _recordTimer s = None -> recording s = true -> noBoundary inputs s ->
    _recordTimer (run inputs s) = None /\
    recording (run inputs s) = true /\
    List.filter isComplete (trace (run inputs s)) =
      List.filter isComplete (trace s).
Proof.
  induction inputs as [|i r IH]; intros s Ht Hrec Hnb; [auto|].
  destruct Hnb as [Hc Hnb]. rewrite run_cons.
  destruct (step_no_boundary i s Ht Hc) as (T & R & C).
  destruct (IH (step i s).2 T (R Hrec) Hnb) as (T' & R' & C').
  repeat split; auto. congruence.
Qed.

End Timer.

(** C10. Calling [record] schedules no timer, and an input that closes no
    combo schedules none either.  So in every session started from idle in
    which no combo is ever closed (no keyup with a non-empty accumulator, no
    single-character keydown while the character-key flag is set), no timer
    is ever pending, the completion callback is never called and the
    dispatcher's recording flag stays true. *)
Theorem no_boundary_never_completes (o : options) (earlier : list input)
  (idle : state) (callback progress : option fn) (t p n : value)
  (session : list input) :
  idle = run earlier (init o) ->
  recording idle = false ->
  noBoundary session (record callback t p n progress idle).2 ->
  (forall s : state,
      _recordTimer (record callback t p n progress s).2 = _recordTimer s) /\
  (forall (i : input) (s : state),
      _recordTimer s = None -> closesCombo i s = false ->
      _recordTimer (step i s).2 = None) /\
  _recordTimer (record callback t p n progress idle).2 = None /\
  _recordTimer (run session (record callback t p n progress idle).2) = None /\
  recording (run session (record callback t p n progress idle).2) = true /\
  List.filter isComplete
    (trace (run session (record callback t p n progress idle).2)) =
    List.filter isComplete (trace idle).
Proof.
  intros -> Hidle Hnb.
  pose proof (sessionInv_run earlier (init o) (sessionInv_init o)) as Hinv.
  assert (_recordTimer (run earlier (init o)) = None) as Ht.
  { destruct (_recordTimer (run earlier (init o))) as [d|] eqn:E; [|easy].
    assert (recording (run earlier (init o)) = true) as Hrec.
    { apply Hinv. rewrite E. eauto. }
    congruence. }
  split; [intros; apply record_timer|].
  split; [intros i s H1 H2; apply (step_no_boundary i s H1 H2)|].
  split; [now rewrite record_timer|].
  apply (run_no_boundary session
           (record callback t p n progress (run earlier (init o))).2);
    [now rewrite record_timer|reflexivity|assumption].
Qed.

Lemma no_boundary_never_completes_witness :
  (forall s : state,
      _recordTimer (record (Some (Fn 1)) VUndefined VUndefined VUndefined None
                      s).2 = _recordTimer s) /\
  (forall (i : input) (s : state),
      _recordTimer s = None -> closesCombo i s = false ->
      _recordTimer (step i s).2 = None) /\
  _recordTimer
    (record (Some (Fn 1)) VUndefined VUndefined VUndefined None
       (run (typeAB ++ [TimerFires]) (init noOptions))).2 = None /\
  _recordTimer
    (run [KeyEventArrives "ctrl" ["ctrl"] down;
          KeyEventArrives "k" ["ctrl"] down; TimerFires]
       (record (Some (Fn 1)) VUndefined VUndefined VUndefined None
          (run (typeAB ++ [TimerFires]) (init noOptions))).2) = None /\
  recording
    (run [KeyEventArrives "ctrl" ["ctrl"] down;
          KeyEventArrives "k" ["ctrl"] down; TimerFires]
       (record (Some (Fn 1)) VUndefined VUndefined VUndefined None
          (run (typeAB ++ [TimerFires]) (init noOptions))).2) = true /\
  List.filter isComplete
    (trace
       (run [KeyEventArrives "ctrl" ["ctrl"] down;
             KeyEventArrives "k" ["ctrl"] down; TimerFires]
          (record (Some (Fn 1)) VUndefined VUndefined VUndefined None
             (run (typeAB ++ [TimerFires]) (init noOptions))).2)) =
    List.filter isComplete
      (trace (run (typeAB ++ [TimerFires]) (init noOptions))).
Proof.
  apply (no_boundary_never_completes noOptions (typeAB ++ [TimerFires])
           (run (typeAB ++ [TimerFires]) (init noOptions))
           (Some (Fn 1)) None VUndefined VUndefined VUndefined
           [KeyEventArrives "ctrl" ["ctrl"] down;
            KeyEventArrives "k" ["ctrl"] down; TimerFires]).
  - reflexivity.
  - reflexivity.
  - vm_compute. auto.
Defined.

(** ** Where the code departs from its description *)

(** While idle, an event that is not a filtered auto-repeat is forwarded to
    the original entry point and nothing else happens. *)
Lemma handleKey_idle_forwards (s : state) (character : string)
  (modifiers : list string) (e : KeyEvent) :
  recording s = false ->
  truthy (_noRepeat s) && repeat e = false ->
  _handleKey character modifiers e s =
    (Ok tt, emit (Forwarded character modifiers e) s).
Proof.
  intros Hrec Hnr. unfold _handleKey.
  rewrite (bind_run (gets _noRepeat)). unfold gets at 1. cbv beta iota.
  rewrite Hnr. cbv beta iota.
  rewrite (bind_run (gets recording)). unfold gets at 1. cbv beta iota.
  now rewrite Hrec.
Qed.

(** C4 (the code at the failing input). With the [noRepeat] option set and
    no recording in progress, an auto-repeat keydown is neither forwarded to
    the original entry point nor recorded: the handler returns at line 101,
    before the test of the recording flag, while the same event without the
    repeat mark is forwarded.  A [noRepeat] argument of an earlier [record]
    call has the same effect after that recording has ended. *)
Theorem idle_repeat_event_is_dropped :
  let s := init {| opt_timeout := None; opt_preventDefault := None;
                   opt_noRepeat := Some (VBool true) |} in
  let later :=
    run [CallRecord (Some (Fn 0)) VUndefined VUndefined (VBool true) None;
         KeyEventArrives "a" [] down; KeyEventArrives "a" [] up; TimerFires]
      (init noOptions) in
  recording s = false /\
  _handleKey "a" [] held s = (Ok tt, s) /\
  trace (run [KeyEventArrives "a" [] held] s) = [] /\
  trace (run [KeyEventArrives "a" [] down] s) = [Forwarded "a" [] down] /\
  recording later = false /\
  _handleKey "a" [] held later = (Ok tt, later).
Proof. cbv zeta. repeat apply conj; vm_compute; reflexivity. Qed.




(** C9 (the code at the failing input). "a" is typed, "b" is pressed and
    still held when the timer fires: [_finishRecording] empties the
    accumulator but leaves the character-key flag set.  In the next
    recording the first single-character keydown is then taken for a
    re-entry: an empty combo is pushed and the timer is started, and the
    sequence delivered for "c" is the empty string followed by "c". *)
Theorem held_key_leaves_flag_set :
  let fired :=
    run [recordWith 0; KeyEventArrives "a" [] down; KeyEventArrives "a" [] up;
         KeyEventArrives "b" [] down; TimerFires] (init noOptions) in
  let next := run [recordWith 1; KeyEventArrives "c" [] down] fired in
  recording fired = false /\
  currentKeys fired = [] /\
  _recordedCharacterKey fired = true /\
  combosOf (heap next) (_recordedSequence next) = Some [[]] /\
  _recordTimer next = Some (VNum 1000) /\
  trace (run heldAcrossSessions (init noOptions)) =
    [CompleteCalled (Fn 0) [Joined "a"];
     CompleteCalled (Fn 1) [Joined ""; Joined "c"]].
Proof. cbv zeta. repeat apply conj; vm_compute; reflexivity. Qed.

(** * Further properties of the code *)

(** ** The comparator and the normalizer *)

Section NormalizerMore.

Lemma compareKeys_range (x y : string) :
  compareKeys x y = (-1)%Z \/ compareKeys x y = 1%Z.
Proof.
  unfold compareKeys.
  destruct ((1 <? String.length x)%nat && (String.length y =? 1)%nat);
    [now left|].
  destruct ((String.length x =? 1)%nat && (1 <? String.length y)%nat);
    [now right|].
  destruct (String.compare x y); auto.
Qed.

Lemma compareKeys_before (x y : string) :
  compareKeys x y = (-1)%Z <-> before x y.
Proof.
  unfold before. destruct (compareKeys_range x y) as [E|E]; rewrite E; lia.
Qed.

(** X1. The comparison function of lines 188-199 returns -1 or 1, never 0;
    on two different key names it is antisymmetric, and it is transitive, so
    on a duplicate-free combo it is a consistent comparison function for
    [sort]; a key name compared with itself gives -1. *)
Theorem compareKeys_total_order :
  (forall x y : string,
      compareKeys x y = (-1)%Z \/ compareKeys x y = 1%Z) /\
  (forall x : string, compareKeys x x = (-1)%Z) /\
  (forall x y : string,
      x <> y -> (compareKeys x y = (-1)%Z <-> compareKeys y x = 1%Z)) /\
  (forall x y z : string,
      compareKeys x y = (-1)%Z -> compareKeys y z = (-1)%Z ->
      compareKeys x z = (-1)%Z).
Proof.
  split; [exact compareKeys_range|]. split; [|split].
  - intros x. apply compareKeys_before, before_refl.
  - intros x y Hne. split.
    + intros Hxy. apply compareKeys_before in Hxy.
      destruct (compareKeys_range y x) as [E|E]; [|exact E].
      apply compareKeys_before in E. elim Hne. now apply before_antisym.
    + intros Hyx. apply compareKeys_before.
      destruct (before_total x y) as [H|H]; [exact H|].
      apply compareKeys_before in H. rewrite H in Hyx. discriminate.
  - intros x y z Hxy Hyz. apply compareKeys_before in Hxy, Hyz.
    apply compareKeys_before. eapply before_trans; eauto.
Qed.

(** X2. The normalized string of a combo depends on which keys it holds,
    not on the order in which they were pushed. *)
Theorem normalizeCombo_order_independent (combo combo' : list string) :
  combo ≡ₚ combo' -> normalizeCombo combo = normalizeCombo combo'.
Proof.
  intros Hp. unfold normalizeCombo. f_equal.
  apply sort_unique; [|apply sortCombo_StronglySorted].
  rewrite sortCombo_perm. now symmetry.
Qed.

Lemma normalizeCombo_order_independent_witness :
  normalizeCombo ["shift"; "k"; "ctrl"] = normalizeCombo ["k"; "ctrl"; "shift"].
Proof.
  apply (normalizeCombo_order_independent ["shift"; "k"; "ctrl"]
           ["k"; "ctrl"; "shift"]).
  apply perm_trans with ["k"; "shift"; "ctrl"];
    [apply perm_swap|apply perm_skip, perm_swap].
Defined.

Lemma normalize_ok_raw (q : list elem) :
  forall h : list (list string),
    (_normalizeSequence q h).1 = Ok tt -> Forall (rawElem h) q.
Proof.
  induction q as [|[l|str] rest IH]; intros h Hok; simpl in *.
  - constructor.
  - destruct (h !! l) as [keys|] eqn:Hl; [|discriminate].
    specialize (IH (<[l := sortCombo keys]> h)).
    destruct (_normalizeSequence rest (<[l := sortCombo keys]> h))
      as [r [rest' h']]. simpl in *.
    constructor; [simpl; eapply lookup_lt_Some, Hl|].
    eapply rawElem_mono; [|apply IH, Hok]. now rewrite length_insert.
  - discriminate.
Qed.

(** X3. [_normalizeSequence] returns normally exactly when every element of
    the sequence is a key array; it then leaves one string per element, the
    normalized string of the combo the element referred to.  On any other
    sequence it throws a TypeError. *)
Theorem normalizeSequence_ok_iff_key_arrays (q : list elem)
  (h : list (list string)) :
  ((_normalizeSequence q h).1 = Ok tt <-> Forall (rawElem h) q) /\
  ((_normalizeSequence q h).1 = Ok tt \/
   (_normalizeSequence q h).1 = Throw TypeError) /\
  (forall combos : list (list string),
      combosOf h q = Some combos ->
      (_normalizeSequence q h).2.1 =
        map (fun keys => Joined (normalizeCombo keys)) combos /\
      length (_normalizeSequence q h).2.1 = length q).
Proof.
  split; [split|split].
  - apply normalize_ok_raw.
  - intros Hraw. destruct (proj1 (combosOf_raw h q) Hraw) as [combos Hc].
    destruct (normalize_raw q h h combos (sameSorted_refl h) Hc)
      as (h' & -> & _). reflexivity.
  - destruct (_normalizeSequence q h) as [[[]|[]] p]; auto.
  - intros combos Hc.
    destruct (normalize_raw q h h combos (sameSorted_refl h) Hc)
      as (h' & E & _). rewrite E. simpl. split; [reflexivity|].
    rewrite length_map. clear E h'. revert combos Hc.
    induction q as [|[l|str] rest IH]; intros combos Hc; simpl in *.
    + now inversion Hc.
    + destruct (h !! l); [|discriminate].
      destruct (combosOf h rest) as [cs|]; [|discriminate].
      inversion Hc; subst. simpl. f_equal. now apply IH.
    + discriminate.
Qed.

(** The loop replaces a prefix of the sequence by strings and leaves the
    rest as it was. *)
Lemma normalize_prefix (q : list elem) :
  forall h : list (list string),
    exists strs : list string,
      (_normalizeSequence q h).2.1 =
        map Joined strs ++ drop (length strs) q /\
      length strs <= length q /\
      ((_normalizeSequence q h).1 = Ok tt <-> length strs = length q).
Proof.
  induction q as [|[l|str] rest IH]; intros h; simpl.
  - exists []. simpl. repeat split; auto.
  - destruct (h !! l) as [keys|] eqn:Hl; simpl.
    + destruct (IH (<[l := sortCombo keys]> h)) as (strs & E & Hle & Hok).
      destruct (_normalizeSequence rest (<[l := sortCombo keys]> h))
        as [r [rest' h']]. simpl in *.
      exists (join "+" (sortCombo keys) :: strs). simpl.
      rewrite E. repeat split; try lia; intros H.
      * f_equal. now apply Hok.
      * apply Hok. lia.
    + exists []. simpl. repeat split; try lia; discriminate.
  - exists []. simpl. repeat split; try lia; discriminate.
Qed.

(** X4. Whatever the sequence, also when the loop throws half way,
    [_normalizeSequence] keeps the length of the sequence array, turns a
    prefix of it into strings and leaves the elements from the offending one
    on untouched; the store keeps its arrays, each with the same key names,
    only their order inside an array may change. *)
Theorem normalizeSequence_partial_effect (q : list elem)
  (h : list (list string)) :
  length (_normalizeSequence q h).2.1 = length q /\
  (exists strs : list string,
      (_normalizeSequence q h).2.1 = map Joined strs ++ drop (length strs) q /\
      ((_normalizeSequence q h).1 = Ok tt <-> length strs = length q)) /\
  length (_normalizeSequence q h).2.2 = length h /\
  Forall2 (fun keys keys' : list string => keys ≡ₚ keys')
    h (_normalizeSequence q h).2.2.
Proof.
  destruct (normalize_prefix q h) as (strs & E & Hle & Hok).
  pose proof (normalize_sameKeys q h) as Hk.
  split; [|split; [|split]].
  - rewrite E, length_app, length_map, length_drop. lia.
  - eauto.
  - now apply sameKeys_length.
  - exact Hk.
Qed.

End NormalizerMore.

(** ** The key handler, case by case *)

Section HandleKeyMore.

(** [_handleKey] by cases: the filtered repeat, the idle dispatcher, and the
    three event types while recording. *)
Lemma handleKey_run (character : string) (modifiers : list string)
  (e : KeyEvent) (s : state) :
  _handleKey character modifiers e s =
    if truthy (_noRepeat s) && repeat e then (Ok tt, s)
    else if negb (recording s)
    then (Ok tt, emit (Forwarded character modifiers e) s)
    else
      match type e with
      | keydown =>
          (for_each _recordKey modifiers ;; _recordKey character)
            (if (String.length character =? 1)%nat && _recordedCharacterKey s
             then (_recordCurrentCombo
                     (if truthy (_preventDefault s)
                      then emit (DefaultPrevented e) s else s)).2
             else if truthy (_preventDefault s)
                  then emit (DefaultPrevented e) s else s)
      | keyup =>
          if (0 <? length (currentKeys s))%nat
          then _recordCurrentCombo
                 (if truthy (_preventDefault s)
                  then emit (DefaultPrevented e) s else s)
          else (Ok tt,
                if truthy (_preventDefault s)
                then emit (DefaultPrevented e) s else s)
      | keypress =>
          (Ok tt,
           if truthy (_preventDefault s)
           then emit (DefaultPrevented e) s else s)
      end.
Proof.
  unfold _handleKey.
  rewrite (bind_run (gets _noRepeat)). unfold gets at 1. cbv beta iota.
  destruct (truthy (_noRepeat s) && repeat e); [reflexivity|].
  rewrite (bind_run (gets recording)). unfold gets at 1. cbv beta iota.
  destruct (recording s); cbn [negb]; cbv beta iota; [|reflexivity].
  rewrite (bind_run (gets _preventDefault)). unfold gets at 1.
  cbv beta iota. rewrite (bind_run (when _ _)).
  destruct (truthy (_preventDefault s)); simpl when; cbv [modify ret];
    cbv beta iota; destruct (type e); try reflexivity.
  - rewrite (bind_run (gets _recordedCharacterKey)). unfold gets at 1.
    cbv beta iota. cbn [_recordedCharacterKey emit].
    destruct ((String.length character =? 1)%nat && _recordedCharacterKey s);
      simpl when; [rewrite (bind_run _recordCurrentCombo)|];
      reflexivity.
  - rewrite (bind_run (gets currentKeys)). unfold gets at 1.
    cbv beta iota.
    change (currentKeys (emit (DefaultPrevented e) s)) with (currentKeys s).
    destruct (0 <? length (currentKeys s))%nat; reflexivity.
  - rewrite (bind_run (gets _recordedCharacterKey)). unfold gets at 1.
    cbv beta iota.
    destruct ((String.length character =? 1)%nat && _recordedCharacterKey s);
      simpl when; [rewrite (bind_run _recordCurrentCombo)|];
      reflexivity.
  - rewrite (bind_run (gets currentKeys)). unfold gets at 1.
    cbv beta iota.
    destruct (0 <? length (currentKeys s))%nat; reflexivity.
Qed.

End HandleKeyMore.

(** ** What is called, and when *)

Section Effects.

Lemma for_each_snoc {A} (body : A -> M unit) (l : list A) (x : A)
  (s : state) :
  (for_each body l ;; body x) s = for_each body (l ++ [x]) s.
Proof.
  revert s. induction l as [|y r IH]; intros s; simpl.
  - rewrite !bind_run. unfold ret at 1.
    destruct (body x s) as [[[]|e] s']; reflexivity.
  - unfold bind in *. destruct (body y s) as [[[]|e] s']; [|reflexivity].
    apply IH.
Qed.

Lemma recordKey_progressCallback (key : string) (s : state) :
  _recordProgressCallback (_recordKey key s).2 = _recordProgressCallback s.
Proof.
  rewrite recordKey_run.
  destruct (existsb (String.eqb key) (currentKeys s)); [reflexivity|].
  cbv zeta.
  destruct (_recordProgressCallback s) as [f|] eqn:Hp;
    [destruct (_normalizeSequence _ _) as [[[]|e] [q' h']]|];
    destruct (String.length key =? 1)%nat; simpl; auto.
Qed.

(** [_recordKey] calls nothing, or the progress callback once with an array
    of strings. *)
Lemma recordKey_effects (key : string) (s : state) :
  exists calls : list effect,
    trace (_recordKey key s).2 = trace s ++ calls /\
    Forall (progressCallOf s) calls /\
    length calls <= 1.
Proof.
  rewrite recordKey_run.
  destruct (existsb (String.eqb key) (currentKeys s)).
  { exists []. simpl. rewrite app_nil_r. auto. }
  cbv zeta.
  set (s2 := if (String.length key =? 1)%nat then _ else _).
  assert (trace s2 = trace s) as Ht
    by (subst s2; destruct (String.length key =? 1)%nat; reflexivity).
  destruct (_recordProgressCallback s) as [f|] eqn:Hp.
  - destruct (normalize_prefix
                (_recordedSequence s ++ [Combo (_currentRecordedKeys s)])
                (heap s2)) as (strs & E & _ & Hok).
    destruct (_normalizeSequence _ (heap s2)) as [[[]|e] [q' h']];
      simpl in *.
    + exists [ProgressCalled f q']. rewrite Ht. repeat split; auto.
      constructor; [|constructor]. exists f, strs. split; [assumption|].
      rewrite E. rewrite (proj1 Hok eq_refl), drop_all. now rewrite app_nil_r.
    + exists []. rewrite Ht, app_nil_r. auto.
  - exists []. simpl. rewrite Ht, app_nil_r. auto.
Qed.

Lemma recordKeys_effects (keys : list string) :
  forall s : state,
    exists calls : list effect,
      trace (for_each _recordKey keys s).2 = trace s ++ calls /\
      Forall (progressCallOf s) calls /\
      length calls <= length keys.
Proof.
  induction keys as [|k r IH]; intros s; simpl.
  - exists []. rewrite app_nil_r. auto.
  - rewrite bind_run.
    destruct (recordKey_effects k s) as (c1 & T1 & P1 & L1).
    pose proof (recordKey_progressCallback k s) as Hp.
    destruct (_recordKey k s) as [[[]|e] s1]; simpl in *.
    + destruct (IH s1) as (c2 & T2 & P2 & L2).
      exists (c1 ++ c2). rewrite T2, T1, app_assoc.
      split; [reflexivity|]. split; [|rewrite length_app; lia].
      apply Forall_app. split; [assumption|].
      eapply Forall_impl; [exact P2|].
      intros x (f & strs & Hf & ->). exists f, strs. split; congruence.
    + exists c1. split; [assumption|]. split; [assumption|lia].
Qed.

(** The effects of one call of [_handleKey]. *)
Lemma handleKey_effects (character : string) (modifiers : list string)
  (e : KeyEvent) (s : state) :
  exists calls : list effect,
    Forall (progressCallOf s) calls /\
    length calls <= length modifiers + 1 /\
    (type e <> keydown -> calls = []) /\
    trace (_handleKey character modifiers e s).2 =
      trace s ++
      (if truthy (_noRepeat s) && repeat e then []
       else if negb (recording s) then [Forwarded character modifiers e]
       else (if truthy (_preventDefault s) then [DefaultPrevented e] else [])
            ++ calls).
Proof.
  rewrite handleKey_run.
  destruct (truthy (_noRepeat s) && repeat e).
  { exists []. simpl. rewrite app_nil_r. auto with lia. }
  destruct (recording s); cbn [negb].
  2:{ exists []. simpl. auto with lia. }
  set (s0 := if truthy (_preventDefault s)
             then emit (DefaultPrevented e) s else s).
  assert (trace s0 =
          trace s ++
          (if truthy (_preventDefault s) then [DefaultPrevented e] else []))
    as Ht0.
  { subst s0. destruct (truthy (_preventDefault s)); simpl;
      [reflexivity|now rewrite app_nil_r]. }
  assert (_recordProgressCallback s0 = _recordProgressCallback s) as Hp0
    by (subst s0; destruct (truthy (_preventDefault s)); reflexivity).
  destruct (type e).
  - rewrite for_each_snoc.
    set (s1 := if (String.length character =? 1)%nat && _recordedCharacterKey s
               then (_recordCurrentCombo s0).2 else s0).
    assert (trace s1 = trace s0 /\
            _recordProgressCallback s1 = _recordProgressCallback s0)
      as [Ht1 Hp1].
    { subst s1.
      destruct ((String.length character =? 1)%nat && _recordedCharacterKey s);
        [rewrite recordCurrentCombo_run|]; auto. }
    destruct (recordKeys_effects (modifiers ++ [character]) s1)
      as (calls & T & P & L).
    exists calls. split; [|split; [|split]].
    + eapply Forall_impl; [exact P|].
      intros x (f & strs & Hf & ->). exists f, strs. split; congruence.
    + rewrite length_app in L. simpl in L. lia.
    + congruence.
    + rewrite T, Ht1, Ht0. now rewrite app_assoc.
  - exists []. split; [constructor|]. split; [simpl; lia|].
    split; [reflexivity|]. rewrite app_nil_r, <- Ht0.
    destruct (0 <? length (currentKeys s))%nat;
      [rewrite recordCurrentCombo_run|]; reflexivity.
  - exists []. split; [constructor|]. split; [simpl; lia|].
    split; [reflexivity|]. now rewrite app_nil_r, <- Ht0.
Qed.

End Effects.

Section EffectsOfSteps.

(** X5. While the dispatcher is not recording, [_handleKey] does one thing
    only: it forwards the event, with its character and modifiers, to the
    original entry point; the session is not touched, whatever the event
    type, and [preventDefault] is not called even when the option is on.
    Only an auto-repeat under [noRepeat] is not forwarded. *)
Theorem idle_event_is_only_forwarded (s : state) (character : string)
  (modifiers : list string) (e : KeyEvent) :
  recording s = false ->
  _handleKey character modifiers e s =
    (Ok tt,
     if truthy (_noRepeat s) && repeat e then s
     else emit (Forwarded character modifiers e) s).
Proof.
  intros Hrec. rewrite handleKey_run, Hrec. cbn [negb].
  destruct (truthy (_noRepeat s) && repeat e); reflexivity.
Qed.

Lemma idle_event_is_only_forwarded_witness :
  _handleKey "k" ["ctrl"] up
    (init {| opt_timeout := None; opt_preventDefault := Some (VBool true);
             opt_noRepeat := None |}) =
    (Ok tt,
     if truthy
          (_noRepeat
             (init {| opt_timeout := None;
                      opt_preventDefault := Some (VBool true);
                      opt_noRepeat := None |}))
        && repeat up
     then init {| opt_timeout := None; opt_preventDefault := Some (VBool true);
                  opt_noRepeat := None |}
     else emit (Forwarded "k" ["ctrl"] up)
            (init {| opt_timeout := None;
                     opt_preventDefault := Some (VBool true);
                     opt_noRepeat := None |})).
Proof.
  apply (idle_event_is_only_forwarded
           (init {| opt_timeout := None;
                    opt_preventDefault := Some (VBool true);
                    opt_noRepeat := None |}) "k" ["ctrl"] up).
  reflexivity.
Defined.

(** X6. With the [preventDefault] option on, every event that gets past the
    repeat filter while recording has its default action prevented exactly
    once, before anything is recorded: the call is the first effect of the
    handler and all the others are progress calls. *)
Theorem processed_event_default_prevented_once (s : state)
  (character : string) (modifiers : list string) (e : KeyEvent) :
  processed e s = true ->
  truthy (_preventDefault s) = true ->
  exists calls : list effect,
    trace (_handleKey character modifiers e s).2 =
      trace s ++ DefaultPrevented e :: calls /\
    Forall (progressCallOf s) calls.
Proof.
  unfold processed. intros Hp Hpd.
  apply andb_true_iff in Hp as [Hf Hrec].
  apply negb_true_iff in Hf.
  destruct (handleKey_effects character modifiers e s)
    as (calls & P & _ & _ & T).
  rewrite Hf, Hrec, Hpd in T. exists calls. auto.
Qed.

Lemma processed_event_default_prevented_once_witness :
  exists calls : list effect,
    trace
      (_handleKey "k" ["ctrl"] down
         (run [CallRecord (Some (Fn 0)) VUndefined (VBool true) VUndefined
                 (Some (Fn 1))] (init noOptions))).2 =
      trace
        (run [CallRecord (Some (Fn 0)) VUndefined (VBool true) VUndefined
                (Some (Fn 1))] (init noOptions))
      ++ DefaultPrevented down :: calls /\
    Forall
      (progressCallOf
         (run [CallRecord (Some (Fn 0)) VUndefined (VBool true) VUndefined
                 (Some (Fn 1))] (init noOptions)))
      calls.
Proof.
  apply (processed_event_default_prevented_once
           (run [CallRecord (Some (Fn 0)) VUndefined (VBool true) VUndefined
                   (Some (Fn 1))] (init noOptions)) "k" ["ctrl"] down);
    reflexivity.
Defined.

(** The effects of [_finishRecording]: none, or one call of the registered
    completion callback with an array of strings. *)
Lemma finishRecording_effects (s : state) :
  trace (_finishRecording s).2 = trace s \/
  exists f strs,
    _recordedSequenceCallback s = Some (Some f) /\
    length strs = length (_recordedSequence s) /\
    trace (_finishRecording s).2 =
      trace s ++ [CompleteCalled f (map Joined strs)].
Proof.
  unfold _finishRecording.
  cbv [bind normalizeRecorded modify gets alloc_empty throw ret].
  destruct (_recordedSequenceCallback s) as [[f|]|] eqn:Hcb.
  - destruct (normalize_prefix (_recordedSequence s) (heap s))
      as (strs & E & _ & Hok).
    destruct (_normalizeSequence _ _) as [[[]|e] [q' h']]; simpl in *;
      [|now left].
    right. exists f, strs. split; [reflexivity|].
    split; [now apply Hok|].
    rewrite E, (proj1 Hok eq_refl), drop_all. now rewrite app_nil_r.
  - destruct (_normalizeSequence _ _) as [[[]|e] [q' h']]; now left.
  - now left.
Qed.

(** The effects a step adds, and what makes it add them. *)
Lemma step_effects (i : input) (s : state) :
  exists added : list effect,
    trace (step i s).2 = trace s ++ added /\
    Forall
      (fun x =>
         stringsOnly x /\
         match x with
         | CompleteCalled f _ =>
             i = TimerFires /\ is_Some (_recordTimer s) /\
             _recordedSequenceCallback s = Some (Some f)
         | ProgressCalled f _ =>
             (exists c m e,
                 i = KeyEventArrives c m e /\ type e = keydown /\
                 processed e s = true) /\
             _recordProgressCallback s = Some f
         | Forwarded c m e =>
             i = KeyEventArrives c m e /\ recording s = false
         | DefaultPrevented e =>
             (exists c m, i = KeyEventArrives c m e) /\
             processed e s = true /\ truthy (_preventDefault s) = true
         end) added.
Proof.
  destruct i as [cb t p n pcb|c m e|]; cbn [step].
  - exists []. simpl. rewrite app_nil_r. auto.
  - destruct (handleKey_effects c m e s) as (calls & P & _ & Hty & T).
    eexists. split; [exact T|].
    destruct (truthy (_noRepeat s) && repeat e) eqn:Hf; [constructor|].
    destruct (recording s) eqn:Hrec; cbn [negb].
    2:{ repeat constructor. }
    assert (processed e s = true) as Hproc
      by (unfold processed; now rewrite Hf, Hrec).
    apply Forall_app. split.
    + destruct (truthy (_preventDefault s)) eqn:Hpd; [|constructor].
      constructor; [|constructor]. split; [exact I|].
      split; [eauto|]. split; auto.
    + destruct (type e) eqn:Ety;
        [|rewrite Hty by discriminate; constructor
         |rewrite Hty by discriminate; constructor].
      eapply Forall_impl; [exact P|].
      intros x (f & strs & Hf' & ->). split; [simpl; eauto|].
      split; [|assumption]. exists c, m, e. auto.
  - unfold fireTimer. rewrite bind_run. unfold gets at 1. cbv beta iota.
    destruct (_recordTimer s) as [d|] eqn:Ht.
    2:{ exists []. simpl. rewrite app_nil_r. auto. }
    rewrite bind_run. unfold modify at 1. cbv beta iota.
    destruct (finishRecording_effects (set_recordTimer None s))
      as [E|(f & strs & Hcb & _ & E)]; rewrite E.
    + exists []. simpl. rewrite app_nil_r. auto.
    + eexists. split; [reflexivity|]. repeat constructor; simpl; eauto.
Qed.

(** X7. Who is called by what.  Every step only adds effects to those
    already there.  A completion callback is called only by the timer, and
    it is the callback of the latest [record]; a progress callback is called
    only by a keydown that is processed while recording, and it is the one
    registered; an event is forwarded only while the dispatcher is not
    recording; [preventDefault] is called only for a processed event with
    the option on.  Callbacks always get an array of strings. *)
Theorem effects_of_a_step (i : input) (s : state) :
  exists added : list effect,
    trace (step i s).2 = trace s ++ added /\
    Forall
      (fun x =>
         stringsOnly x /\
         match x with
         | CompleteCalled f _ =>
             i = TimerFires /\ is_Some (_recordTimer s) /\
             _recordedSequenceCallback s = Some (Some f)
         | ProgressCalled f _ =>
             (exists c m e,
                 i = KeyEventArrives c m e /\ type e = keydown /\
                 processed e s = true) /\
             _recordProgressCallback s = Some f
         | Forwarded c m e =>
             i = KeyEventArrives c m e /\ recording s = false
         | DefaultPrevented e =>
             (exists c m, i = KeyEventArrives c m e) /\
             processed e s = true /\ truthy (_preventDefault s) = true
         end) added.
Proof. exact (step_effects i s). Qed.

Lemma step_strings (i : input) (s : state) :
  Forall stringsOnly (trace s) -> Forall stringsOnly (trace (step i s).2).
Proof.
  intros H. destruct (step_effects i s) as (added & -> & Hadd).
  apply Forall_app. split; [assumption|].
  eapply Forall_impl; [exact Hadd|]. now intros x [Hx _].
Qed.

End EffectsOfSteps.

(** X8. Along every run, whatever the inputs, every completion or progress
    callback that is called gets an array of strings: no key array of the
    store ever reaches a callback. *)
Theorem callbacks_get_strings (o : options) (inputs : list input) :
  Forall stringsOnly (trace (run inputs (init o))).
Proof.
  assert (forall s, Forall stringsOnly (trace s) ->
                    Forall stringsOnly (trace (run inputs s))) as H.
  { induction inputs as [|i r IH]; intros s Hs; [exact Hs|].
    rewrite run_cons. now apply IH, step_strings. }
  apply H. constructor.
Qed.

(** ** Combo boundaries and the sequence *)

Section Boundaries.

Lemma recordKeys_frame (keys : list string) (s : state) :
  _recordedSequence (for_each _recordKey keys s).2 = _recordedSequence s /\
  _recordTimer (for_each _recordKey keys s).2 = _recordTimer s /\
  _currentRecordedKeys (for_each _recordKey keys s).2 =
    _currentRecordedKeys s /\
  _recordedSequenceCallback (for_each _recordKey keys s).2 =
    _recordedSequenceCallback s.
Proof.
  apply (for_each_keeps
           (fun s' => _recordedSequence s' = _recordedSequence s /\
                      _recordTimer s' = _recordTimer s /\
                      _currentRecordedKeys s' = _currentRecordedKeys s /\
                      _recordedSequenceCallback s' =
                        _recordedSequenceCallback s)); [|auto].
  intros k s1 (H1 & H2 & H3 & H4).
  destruct (recordKey_frame k s1) as (F1 & F2 & F3 & F4 & _).
  repeat split; congruence.
Qed.

(** The sequence and the timer after one call of [_handleKey]. *)
Lemma handleKey_boundary (character : string) (modifiers : list string)
  (e : KeyEvent) (s : state) :
  _recordedSequence (_handleKey character modifiers e s).2 =
    _recordedSequence s ++
    (if closesCombo (KeyEventArrives character modifiers e) s
     then [Combo (_currentRecordedKeys s)] else []) /\
  _recordTimer (_handleKey character modifiers e s).2 =
    (if closesCombo (KeyEventArrives character modifiers e) s
     then Some (_recordTimeout s) else _recordTimer s).
Proof.
  rewrite handleKey_run. unfold closesCombo.
  destruct (truthy (_noRepeat s) && repeat e); cbn [negb andb];
    [simpl; now rewrite app_nil_r|].
  destruct (recording s); cbn [negb andb]; [|simpl; now rewrite app_nil_r].
  destruct (type e).
  - rewrite for_each_snoc.
    match goal with
    | |- context [for_each _recordKey ?ks ?s1] =>
        destruct (recordKeys_frame ks s1) as (F1 & F2 & _); rewrite F1, F2
    end.
    destruct ((String.length character =? 1)%nat && _recordedCharacterKey s);
      [rewrite recordCurrentCombo_run|];
      destruct (truthy (_preventDefault s)); simpl;
      rewrite ?app_nil_r; auto.
  - destruct (0 <? length (currentKeys s))%nat;
      [rewrite recordCurrentCombo_run|];
      destruct (truthy (_preventDefault s)); simpl;
      rewrite ?app_nil_r; auto.
  - destruct (truthy (_preventDefault s)); simpl; rewrite ?app_nil_r; auto.
Qed.

(** X9. A key event appends the accumulator to the sequence and restarts the
    idle timer, with the timeout resolved by the last [record], exactly when
    it is a combo boundary (a processed keyup over a non-empty accumulator,
    or a processed single-character keydown while the character-key flag is
    set); every other key event leaves the sequence and a pending timer as
    they are.  The timer is thus restarted per combo, not per keystroke. *)
Theorem key_event_boundary_effect (character : string)
  (modifiers : list string) (e : KeyEvent) (s : state) :
  _recordedSequence (step (KeyEventArrives character modifiers e) s).2 =
    _recordedSequence s ++
    (if closesCombo (KeyEventArrives character modifiers e) s
     then [Combo (_currentRecordedKeys s)] else []) /\
  _recordTimer (step (KeyEventArrives character modifiers e) s).2 =
    (if closesCombo (KeyEventArrives character modifiers e) s
     then Some (_recordTimeout s) else _recordTimer s).
Proof. exact (handleKey_boundary character modifiers e s). Qed.

Lemma run_sequence_length (inputs : list input) :
  forall s : state,
    Forall (fun i => i <> TimerFires) inputs ->
    length (_recordedSequence (run inputs s)) =
      length (_recordedSequence s) + countBoundaries inputs s.
Proof.
  induction inputs as [|i r IH]; intros s Hall; [simpl; lia|].
  inversion Hall as [|? ? Hi Hr]; subst. rewrite run_cons, (IH _ Hr).
  cbn [countBoundaries].
  destruct i as [cb t p n pcb|c m e|]; [| |congruence].
  - simpl. lia.
  - cbn [step]. destruct (handleKey_boundary c m e s) as [-> _].
    rewrite length_app.
    destruct (closesCombo (KeyEventArrives c m e) s); simpl; lia.
Qed.

Lemma run_no_boundaries_no_timer (inputs : list input) :
  forall s : state,
    Forall (fun i => i <> TimerFires) inputs ->
    _recordTimer s = None -> countBoundaries inputs s = 0 ->
    _recordTimer (run inputs s) = None.
Proof.
  induction inputs as [|i r IH]; intros s Hnt Hs Hc; [exact Hs|].
  inversion Hnt as [|? ? Hi Hr]; subst. cbn [countBoundaries] in Hc.
  rewrite run_cons. apply IH; [assumption| |lia].
  destruct i as [cb t p n pcb|c m e|]; [exact Hs| |congruence].
  cbn [step]. destruct (handleKey_boundary c m e s) as [_ E'].
  rewrite E'.
  destruct (closesCombo (KeyEventArrives c m e) s); [lia|].
  assumption.
Qed.

(** X10. In a recording that runs from the start until the timer first
    fires, with functions as completion callbacks, the completion callback
    gets exactly as many combo strings as there were combo boundaries. *)
Theorem delivered_length_counts_boundaries (o : options)
  (inputs : list input) (d : value) :
  Forall callableInput inputs ->
  Forall (fun i => i <> TimerFires) inputs ->
  _recordTimer (run inputs (init o)) = Some d ->
  exists (f : fn) (strs : list string),
    trace (step TimerFires (run inputs (init o))).2 =
      trace (run inputs (init o)) ++ [CompleteCalled f (map Joined strs)] /\
    length strs = countBoundaries inputs (init o) /\
    0 < countBoundaries inputs (init o).
Proof.
  intros Hall Hnt Ht.
  destruct (rawInv_run inputs (init o) Hall
              (conj (sessionInv_init o) (rawInv_init o))) as [Hs Hr].
  pose proof (run_sequence_length inputs (init o) Hnt) as Hlen.
  simpl in Hlen.
  assert (0 < countBoundaries inputs (init o)) as Hpos.
  { destruct (countBoundaries inputs (init o)) eqn:E; [|lia]. exfalso.
    rewrite (run_no_boundaries_no_timer inputs (init o) Hnt eq_refl E) in Ht.
    discriminate. }
  set (s := run inputs (init o)) in *.
  assert (recording s = true) as Hrec by (apply Hs; eauto).
  destruct Hr as [H1 H2 H3].
  destruct (H3 Hrec) as [[f|] Hcb]; [|congruence].
  destruct (proj1 (combosOf_raw _ _) H1) as [combos Hc].
  destruct (fireTimer_delivers s d f combos Ht Hcb Hc)
    as (s' & E & Htr & _).
  exists f, (map normalizeCombo combos). cbn [step]. rewrite E. simpl.
  rewrite Htr, map_map. split; [reflexivity|]. split; [|assumption].
  rewrite length_map, <- Hlen. clear -Hc.
  revert combos Hc. generalize (heap s).
  induction (_recordedSequence s) as [|[l|str] rest IH]; intros h combos Hc;
    simpl in *.
  - now inversion Hc.
  - destruct (h !! l); [|discriminate].
    destruct (combosOf h rest) as [cs|] eqn:E; [|discriminate].
    inversion Hc; subst. simpl. f_equal. now apply (IH h).
  - discriminate.
Qed.

Lemma delivered_length_counts_boundaries_witness :
  exists (f : fn) (strs : list string),
    trace (step TimerFires (run typeAB (init noOptions))).2 =
      trace (run typeAB (init noOptions)) ++
      [CompleteCalled f (map Joined strs)] /\
    length strs = countBoundaries typeAB (init noOptions) /\
    0 < countBoundaries typeAB (init noOptions).
Proof.
  apply (delivered_length_counts_boundaries noOptions typeAB (VNum 1000)).
  - repeat constructor.
  - repeat constructor; discriminate.
  - reflexivity.
Defined.

End Boundaries.

(** ** What a key event does to the accumulator *)

Section Accumulator.

Local Abbreviation sameKeys := (Forall2 (fun k k' : list string => k ≡ₚ k')).

(** The store after [_recordKey]: the accumulator has the key pushed if it
    was not held; the other arrays hold the keys they held. *)
Lemma recordKey_store (key : string) (s : state) :
  sessionInv s ->
  currentKeys (_recordKey key s).2 ≡ₚ
    (if existsb (String.eqb key) (currentKeys s)
     then currentKeys s else currentKeys s ++ [key]) /\
  (forall l keys,
      l <> _currentRecordedKeys s -> heap s !! l = Some keys ->
      exists keys', heap (_recordKey key s).2 !! l = Some keys' /\
                    keys' ≡ₚ keys).
Proof.
  intros Hinv. rewrite recordKey_run.
  destruct (existsb (String.eqb key) (currentKeys s)) eqn:Ex.
  { split; [reflexivity|]. intros l keys _ Hl. eauto. }
  cbv zeta.
  set (s2 := if (String.length key =? 1)%nat then _ else _).
  assert (heap s2 =
          <[_currentRecordedKeys s := currentKeys s ++ [key]]> (heap s) /\
          _currentRecordedKeys s2 = _currentRecordedKeys s) as [Hh Hc]
    by (subst s2; destruct (String.length key =? 1)%nat; auto).
  assert (currentKeys s2 = currentKeys s ++ [key]) as Hk2.
  { unfold currentKeys at 1. rewrite Hh, Hc.
    now rewrite list_lookup_insert_eq by apply Hinv. }
  assert (forall h', sameKeys (heap s2) h' ->
            default [] (h' !! _currentRecordedKeys s) ≡ₚ
              currentKeys s ++ [key] /\
            forall l keys,
              l <> _currentRecordedKeys s -> heap s !! l = Some keys ->
              exists keys', h' !! l = Some keys' /\ keys' ≡ₚ keys) as Hgen.
  { intros h' Hs. split.
    - rewrite (sameKeys_lookup _ _ (_currentRecordedKeys s) Hs).
      rewrite <- Hk2. unfold currentKeys. now rewrite Hc.
    - intros l keys Hne Hl.
      assert (heap s2 !! l = Some keys) as Hl2
        by (rewrite Hh, list_lookup_insert_ne; auto).
      destruct (Forall2_lookup_l _ _ _ _ _ Hs Hl2) as (keys' & E & Hp).
      exists keys'. split; [assumption|now symmetry]. }
  destruct (_recordProgressCallback s) as [f|].
  - pose proof (normalize_sameKeys
      (_recordedSequence s ++ [Combo (_currentRecordedKeys s)]) (heap s2))
      as Hs.
    destruct (_normalizeSequence _ (heap s2)) as [[[]|e] [q' h']];
      simpl in Hs; destruct (Hgen h' Hs) as [G1 G2];
      (split; [unfold currentKeys; simpl; now rewrite Hc|exact G2]).
  - destruct (Hgen (heap s2) (sameKeys_refl _)) as [G1 G2].
    split; [|exact G2]. simpl. now rewrite Hk2.
Qed.

Lemma recordKey_members (key : string) (s : state) :
  sessionInv s ->
  forall k, k ∈ currentKeys (_recordKey key s).2 <->
            k ∈ currentKeys s \/ k = key.
Proof.
  intros Hinv k. destruct (recordKey_store key s Hinv) as [Hp _].
  rewrite Hp.
  destruct (existsb (String.eqb key) (currentKeys s)) eqn:Ex.
  - split; [auto|]. intros [H| ->]; [assumption|].
    apply existsb_exists in Ex as (k' & Hk' & Heq).
    apply String.eqb_eq in Heq. subst. now apply list_elem_of_In.
  - rewrite elem_of_app, list_elem_of_singleton. reflexivity.
Qed.

Lemma recordKeys_members (keys : list string) :
  forall s : state,
    sessionInv s -> (for_each _recordKey keys s).1 = Ok tt ->
    forall k, k ∈ currentKeys (for_each _recordKey keys s).2 <->
              k ∈ currentKeys s \/ k ∈ keys.
Proof.
  induction keys as [|key r IH]; intros s Hinv Hok k; simpl in *.
  - split; [auto|]. intros [H|H]; [assumption|inversion H].
  - rewrite bind_run in Hok |- *.
    pose proof (recordKey_members key s Hinv k) as Hm.
    pose proof (sessionInv_recordKey key s Hinv) as Hinv'.
    destruct (_recordKey key s) as [[[]|e] s1]; simpl in *; [|discriminate].
    rewrite (IH s1 Hinv' Hok k), Hm, elem_of_cons. tauto.
Qed.

(** X11. A processed keyup ends the whole combo: afterwards the accumulator
    is empty, so keys that are still held are not carried into the next
    combo.  If the accumulator held keys, that array has become the last
    element of the sequence, the character-key flag is cleared and the
    timer is restarted; if it was empty, nothing is recorded. *)
Theorem keyup_ends_the_combo (o : options) (inputs : list input)
  (s : state) (character : string) (modifiers : list string) (e : KeyEvent) :
  s = run inputs (init o) ->
  processed e s = true ->
  type e = keyup ->
  currentKeys (_handleKey character modifiers e s).2 = [] /\
  (currentKeys s <> [] ->
   _recordedSequence (_handleKey character modifiers e s).2 =
     _recordedSequence s ++ [Combo (_currentRecordedKeys s)] /\
   heap (_handleKey character modifiers e s).2 !! _currentRecordedKeys s =
     Some (currentKeys s) /\
   _recordedCharacterKey (_handleKey character modifiers e s).2 = false /\
   _recordTimer (_handleKey character modifiers e s).2 =
     Some (_recordTimeout s)) /\
  (currentKeys s = [] ->
   _handleKey character modifiers e s =
     (Ok tt,
      if truthy (_preventDefault s) then emit (DefaultPrevented e) s else s)).
Proof.
  intros -> Hp Hty.
  pose proof (sessionInv_run inputs (init o) (sessionInv_init o)) as Hinv.
  set (s := run inputs (init o)) in *.
  pose proof (currentKeys_lookup s Hinv) as Hcur.
  pose proof (inv_current s Hinv) as Hlt.
  unfold processed in Hp. apply andb_true_iff in Hp as [Hf Hrec].
  apply negb_true_iff in Hf.
  rewrite handleKey_run, Hf, Hrec, Hty. cbn [negb].
  destruct (currentKeys s) as [|k0 ks] eqn:Ek; simpl length; cbn [Nat.ltb Nat.leb].
  - split; [|split; [congruence|reflexivity]].
    destruct (truthy (_preventDefault s)); exact Ek.
  - rewrite recordCurrentCombo_run. split; [|split; [|congruence]].
    + unfold currentKeys.
      destruct (truthy (_preventDefault s)); simpl;
        rewrite lookup_app_r by lia; now rewrite Nat.sub_diag.
    + intros _.
      destruct (truthy (_preventDefault s)); simpl;
        rewrite lookup_app_l by assumption; auto.
Qed.

Lemma keyup_ends_the_combo_witness :
  currentKeys
    (_handleKey "k" ["ctrl"] up
       (run [recordWith 0; KeyEventArrives "k" ["ctrl"] down]
          (init noOptions))).2 = [] /\
  (currentKeys
     (run [recordWith 0; KeyEventArrives "k" ["ctrl"] down] (init noOptions))
     <> [] ->
   _recordedSequence
     (_handleKey "k" ["ctrl"] up
        (run [recordWith 0; KeyEventArrives "k" ["ctrl"] down]
           (init noOptions))).2 =
     _recordedSequence
       (run [recordWith 0; KeyEventArrives "k" ["ctrl"] down] (init noOptions))
     ++ [Combo
           (_currentRecordedKeys
              (run [recordWith 0; KeyEventArrives "k" ["ctrl"] down]
                 (init noOptions)))] /\
   heap
     (_handleKey "k" ["ctrl"] up
        (run [recordWith 0; KeyEventArrives "k" ["ctrl"] down]
           (init noOptions))).2
     !! _currentRecordedKeys
          (run [recordWith 0; KeyEventArrives "k" ["ctrl"] down]
             (init noOptions)) =
     Some
       (currentKeys
          (run [recordWith 0; KeyEventArrives "k" ["ctrl"] down]
             (init noOptions))) /\
   _recordedCharacterKey
     (_handleKey "k" ["ctrl"] up
        (run [recordWith 0; KeyEventArrives "k" ["ctrl"] down]
           (init noOptions))).2 = false /\
   _recordTimer
     (_handleKey "k" ["ctrl"] up
        (run [recordWith 0; KeyEventArrives "k" ["ctrl"] down]
           (init noOptions))).2 =
     Some
       (_recordTimeout
          (run [recordWith 0; KeyEventArrives "k" ["ctrl"] down]
             (init noOptions)))) /\
  (currentKeys
     (run [recordWith 0; KeyEventArrives "k" ["ctrl"] down] (init noOptions))
     = [] ->
   _handleKey "k" ["ctrl"] up
     (run [recordWith 0; KeyEventArrives "k" ["ctrl"] down] (init noOptions)) =
     (Ok tt,
      if truthy
           (_preventDefault
              (run [recordWith 0; KeyEventArrives "k" ["ctrl"] down]
                 (init noOptions)))
      then emit (DefaultPrevented up)
             (run [recordWith 0; KeyEventArrives "k" ["ctrl"] down]
                (init noOptions))
      else run [recordWith 0; KeyEventArrives "k" ["ctrl"] down]
             (init noOptions))).
Proof.
  apply (keyup_ends_the_combo noOptions
           [recordWith 0; KeyEventArrives "k" ["ctrl"] down]
           (run [recordWith 0; KeyEventArrives "k" ["ctrl"] down]
              (init noOptions)) "k" ["ctrl"] up); reflexivity.
Defined.

(** The session in which a processed keydown starts to push its keys: the
    invariant holds there, and the accumulator is empty after a re-entry
    boundary and as before otherwise. *)
Lemma keydown_base (s : state) (character : string) (e : KeyEvent) :
  sessionInv s -> recording s = true ->
  sessionInv
    (if (String.length character =? 1)%nat && _recordedCharacterKey s
     then (_recordCurrentCombo
             (if truthy (_preventDefault s)
              then emit (DefaultPrevented e) s else s)).2
     else if truthy (_preventDefault s)
          then emit (DefaultPrevented e) s else s) /\
  currentKeys
    (if (String.length character =? 1)%nat && _recordedCharacterKey s
     then (_recordCurrentCombo
             (if truthy (_preventDefault s)
              then emit (DefaultPrevented e) s else s)).2
     else if truthy (_preventDefault s)
          then emit (DefaultPrevented e) s else s) =
    (if (String.length character =? 1)%nat && _recordedCharacterKey s
     then [] else currentKeys s).
Proof.
  intros Hinv Hrec.
  assert (sessionInv (if truthy (_preventDefault s)
                      then emit (DefaultPrevented e) s else s) /\
          recording (if truthy (_preventDefault s)
                     then emit (DefaultPrevented e) s else s) = true /\
          currentKeys (if truthy (_preventDefault s)
                       then emit (DefaultPrevented e) s else s) =
            currentKeys s /\
          _currentRecordedKeys (if truthy (_preventDefault s)
                                then emit (DefaultPrevented e) s else s) <
            length (heap (if truthy (_preventDefault s)
                          then emit (DefaultPrevented e) s else s)))
    as (I0 & R0 & K0 & L0).
  { destruct (truthy (_preventDefault s)); repeat split; auto;
      apply Hinv. }
  destruct ((String.length character =? 1)%nat && _recordedCharacterKey s);
    [|auto].
  split; [now apply sessionInv_recordCurrentCombo|].
  rewrite recordCurrentCombo_run. unfold currentKeys. simpl.
  rewrite lookup_app_r by lia. now rewrite Nat.sub_diag.
Qed.

(** X12. A processed keydown that returns normally leaves in the
    accumulator exactly the modifiers and the character of the event,
    together with the keys held before unless the event was a re-entry
    boundary; it holds each of them once. *)
Theorem keydown_accumulates (o : options) (inputs : list input)
  (s : state) (character : string) (modifiers : list string) (e : KeyEvent) :
  s = run inputs (init o) ->
  processed e s = true ->
  type e = keydown ->
  (_handleKey character modifiers e s).1 = Ok tt ->
  NoDup (currentKeys (_handleKey character modifiers e s).2) /\
  (forall k : string,
      k ∈ currentKeys (_handleKey character modifiers e s).2 <->
      ((String.length character =? 1)%nat && _recordedCharacterKey s = false
       /\ k ∈ currentKeys s) \/
      k ∈ modifiers \/ k = character).
Proof.
  intros -> Hp Hty Hok.
  pose proof (sessionInv_run inputs (init o) (sessionInv_init o)) as Hinv.
  set (s := run inputs (init o)) in *.
  split; [apply currentKeys_NoDup, sessionInv_handleKey, Hinv|].
  unfold processed in Hp. apply andb_true_iff in Hp as [Hf Hrec].
  apply negb_true_iff in Hf.
  revert Hok. rewrite handleKey_run, Hf, Hrec, Hty. cbn [negb].
  rewrite for_each_snoc.
  destruct (keydown_base s character e Hinv Hrec) as [I1 K1].
  intros Hok k.
  rewrite (recordKeys_members _ _ I1 Hok k), K1.
  rewrite elem_of_app, list_elem_of_singleton.
  destruct ((String.length character =? 1)%nat && _recordedCharacterKey s).
  - split; [intros [H|H]; [inversion H|auto]|].
    intros [[H _]|H]; [discriminate|auto].
  - tauto.
Qed.

Lemma keydown_accumulates_witness :
  NoDup
    (currentKeys
       (_handleKey "k" ["shift"; "ctrl"] down
          (run [recordWithProgress 0 1; KeyEventArrives "ctrl" ["ctrl"] down]
             (init noOptions))).2) /\
  (forall k : string,
      k ∈ currentKeys
            (_handleKey "k" ["shift"; "ctrl"] down
               (run [recordWithProgress 0 1;
                     KeyEventArrives "ctrl" ["ctrl"] down]
                  (init noOptions))).2 <->
      ((String.length "k" =? 1)%nat &&
       _recordedCharacterKey
         (run [recordWithProgress 0 1; KeyEventArrives "ctrl" ["ctrl"] down]
            (init noOptions)) = false /\
       k ∈ currentKeys
             (run [recordWithProgress 0 1;
                   KeyEventArrives "ctrl" ["ctrl"] down]
                (init noOptions))) \/
      k ∈ ["shift"; "ctrl"] \/ k = "k").
Proof.
  apply (keydown_accumulates noOptions
           [recordWithProgress 0 1; KeyEventArrives "ctrl" ["ctrl"] down]
           (run [recordWithProgress 0 1; KeyEventArrives "ctrl" ["ctrl"] down]
              (init noOptions)) "k" ["shift"; "ctrl"] down);
    reflexivity.
Defined.

(** X13. Holding a character key down with [noRepeat] off: every further
    keydown of the key, alone in the accumulator, is a re-entry boundary, so
    each auto-repeat records one more combo made of that key and leaves the
    key in a new accumulator, with the timer restarted. *)
Theorem held_character_key_repeats_the_combo (o : options)
  (inputs : list input) (s : state) (character : string) (e : KeyEvent) :
  s = run inputs (init o) ->
  processed e s = true ->
  type e = keydown ->
  String.length character = 1 ->
  currentKeys s = [character] ->
  _recordedSequence (_handleKey character [] e s).2 =
    _recordedSequence s ++ [Combo (_currentRecordedKeys s)] /\
  heap (_handleKey character [] e s).2 !! _currentRecordedKeys s =
    Some [character] /\
  currentKeys (_handleKey character [] e s).2 = [character] /\
  _recordTimer (_handleKey character [] e s).2 = Some (_recordTimeout s).
Proof.
  intros -> Hp Hty Hlen Hk.
  pose proof (sessionInv_run inputs (init o) (sessionInv_init o)) as Hinv.
  set (s := run inputs (init o)) in *.
  assert (_recordedCharacterKey s = true) as Hflag.
  { apply Hinv. exists character. rewrite Hk. split; [left|assumption]. }
  pose proof (handleKey_boundary character [] e s) as [Hseq Htimer].
  assert (closesCombo (KeyEventArrives character [] e) s = true) as Hc.
  { unfold closesCombo. unfold processed in Hp. rewrite Hp, Hty, Hflag, Hlen.
    reflexivity. }
  rewrite Hc in Hseq, Htimer.
  split; [assumption|]. split; [|split; [|assumption]].
  - (* the closed array is still the one key *)
    unfold processed in Hp. apply andb_true_iff in Hp as [Hf Hrec].
    apply negb_true_iff in Hf.
    rewrite handleKey_run, Hf, Hrec, Hty, Hlen, Hflag.
    cbn [negb Nat.eqb andb for_each].
    rewrite bind_run. unfold ret at 1. cbv beta iota.
    destruct (keydown_base s character e Hinv Hrec) as [I1 K1].
    rewrite Hlen, Hflag in I1, K1. cbn [Nat.eqb andb] in I1, K1.
    destruct (recordKey_store character _ I1) as [_ Hother].
    destruct (Hother (_currentRecordedKeys s) [character]) as (keys' & E & P).
    + rewrite recordCurrentCombo_run. simpl.
      destruct (truthy (_preventDefault s)); simpl;
        pose proof (inv_current s Hinv); lia.
    + rewrite recordCurrentCombo_run.
      pose proof (currentKeys_lookup s Hinv) as Hcur. rewrite Hk in Hcur.
      destruct (truthy (_preventDefault s)); simpl;
        rewrite lookup_app_l by apply Hinv; assumption.
    + rewrite E. f_equal. now apply Permutation_singleton_r.
  - assert (sessionInv (_handleKey character [] e s).2) as Hinv'
      by now apply sessionInv_handleKey.
    pose proof (currentKeys_NoDup _ Hinv') as Hnd.
    unfold processed in Hp. apply andb_true_iff in Hp as [Hf Hrec].
    apply negb_true_iff in Hf.
    revert Hnd. rewrite handleKey_run, Hf, Hrec, Hty, Hlen, Hflag.
    cbn [negb Nat.eqb andb for_each]. rewrite bind_run. unfold ret at 1.
    cbv beta iota.
    destruct (keydown_base s character e Hinv Hrec) as [I1 K1].
    rewrite Hlen, Hflag in I1, K1. cbn [Nat.eqb andb] in I1, K1.
    destruct (recordKey_store character _ I1) as [Hperm _].
    rewrite K1 in Hperm. simpl in Hperm. intros _.
    now apply Permutation_singleton_r.
Qed.

Lemma held_character_key_repeats_the_combo_witness :
  _recordedSequence
    (_handleKey "a" [] held
       (run [recordWith 0; KeyEventArrives "a" [] down] (init noOptions))).2 =
    _recordedSequence
      (run [recordWith 0; KeyEventArrives "a" [] down] (init noOptions))
    ++ [Combo
          (_currentRecordedKeys
             (run [recordWith 0; KeyEventArrives "a" [] down]
                (init noOptions)))] /\
  heap
    (_handleKey "a" [] held
       (run [recordWith 0; KeyEventArrives "a" [] down] (init noOptions))).2
    !! _currentRecordedKeys
         (run [recordWith 0; KeyEventArrives "a" [] down] (init noOptions)) =
    Some ["a"] /\
  currentKeys
    (_handleKey "a" [] held
       (run [recordWith 0; KeyEventArrives "a" [] down] (init noOptions))).2 =
    ["a"] /\
  _recordTimer
    (_handleKey "a" [] held
       (run [recordWith 0; KeyEventArrives "a" [] down] (init noOptions))).2 =
    Some
      (_recordTimeout
         (run [recordWith 0; KeyEventArrives "a" [] down] (init noOptions))).
Proof.
  apply (held_character_key_repeats_the_combo noOptions
           [recordWith 0; KeyEventArrives "a" [] down]
           (run [recordWith 0; KeyEventArrives "a" [] down] (init noOptions))
           "a" held); reflexivity.
Defined.

End Accumulator.

(** ** What the recorder never does *)

Section Safety.






(** X15. A dispatcher that is not recording has no timer pending, whatever
    happened before: the completion callback cannot be called while idle,
    and a timer that is pending always belongs to a recording in progress. *)
Theorem idle_has_no_pending_timer (o : options) (inputs : list input) :
  recording (run inputs (init o)) = false ->
  _recordTimer (run inputs (init o)) = None /\
  trace (step TimerFires (run inputs (init o))).2 =
    trace (run inputs (init o)).
Proof.
  intros Hidle.
  pose proof (sessionInv_run inputs (init o) (sessionInv_init o)) as Hinv.
  assert (_recordTimer (run inputs (init o)) = None) as Ht.
  { destruct (_recordTimer (run inputs (init o))) as [d|] eqn:E; [|easy].
    assert (recording (run inputs (init o)) = true) as Hrec.
    { apply Hinv. rewrite E. eauto. }
    congruence. }
  split; [assumption|]. cbv [step fireTimer bind gets]. now rewrite Ht.
Qed.

Lemma idle_has_no_pending_timer_witness :
  _recordTimer (run (typeAB ++ [TimerFires]) (init noOptions)) = None /\
  trace (step TimerFires (run (typeAB ++ [TimerFires]) (init noOptions))).2 =
    trace (run (typeAB ++ [TimerFires]) (init noOptions)).
Proof.
  apply (idle_has_no_pending_timer noOptions (typeAB ++ [TimerFires])).
  reflexivity.
Defined.

(** A pending timer means that a combo has been closed since the sequence
    was last emptied. *)
Lemma pending_timer_has_combo (inputs : list input) :
  forall s : state,
    (is_Some (_recordTimer s) -> _recordedSequence s <> []) ->
    is_Some (_recordTimer (run inputs s)) ->
    _recordedSequence (run inputs s) <> [].
Proof.
  induction inputs as [|i r IH]; intros s Hs; [exact Hs|].
  rewrite run_cons. apply IH.
  destruct i as [cb t p n pcb|c m e|]; cbn [step].
  - exact Hs.
  - destruct (handleKey_boundary c m e s) as [-> ->].
    destruct (closesCombo (KeyEventArrives c m e) s).
    + intros _. destruct (_recordedSequence s); discriminate.
    + rewrite app_nil_r. exact Hs.
  - cbv [fireTimer bind gets].
    destruct (_recordTimer s) as [d|] eqn:Ht; [|simpl; now rewrite Ht].
    unfold modify at 1.
    assert (_recordTimer (_finishRecording (set_recordTimer None s)).2 = None)
      as ->; [|intros [x Hx]; discriminate].
    unfold _finishRecording.
    cbv [bind normalizeRecorded modify gets alloc_empty throw ret].
    destruct (_recordedSequenceCallback (set_recordTimer None s))
      as [[f|]|];
      try destruct (_normalizeSequence _ _) as [[[]|e] [q' h']]; reflexivity.
Qed.

(** X16. [record] does not clear what has been recorded.  When it is called
    again while a timer is pending, the combos closed for the earlier call
    stay in the sequence; when the timer fires they are all delivered to the
    new callback, and the callback of the earlier call is not called. *)
Theorem second_record_takes_over (o : options) (inputs : list input)
  (s : state) (d : value) (f2 : fn) (t p n : value) (progress : option fn) :
  s = run inputs (init o) ->
  Forall callableInput inputs ->
  _recordTimer s = Some d ->
  exists combos : list (list string),
    combosOf (heap s) (_recordedSequence s) = Some combos /\
    combos <> [] /\
    trace (run [CallRecord (Some f2) t p n progress; TimerFires] s) =
      trace s ++
      [CompleteCalled f2 (map (fun keys => Joined (normalizeCombo keys)) combos)]
    /\
    recording (run [CallRecord (Some f2) t p n progress; TimerFires] s) = false.
Proof.
  intros -> Hall Ht.
  destruct (rawInv_run inputs (init o) Hall
              (conj (sessionInv_init o) (rawInv_init o))) as [Hs Hr].
  assert (_recordedSequence (run inputs (init o)) <> []) as Hne.
  { apply pending_timer_has_combo; [|rewrite Ht; eauto].
    simpl. intros [x Hx]. discriminate. }
  set (s := run inputs (init o)) in *.
  destruct (proj1 (combosOf_raw _ _) (raw_sequence s Hr)) as [combos Hc].
  exists combos. split; [assumption|].
  destruct (fireTimer_delivers
              (record (Some f2) t p n progress s).2 d f2 combos Ht eq_refl Hc)
    as (s' & E & Htr & _ & _ & _ & Hrec & _).
  split.
  - intros ->. destruct (_recordedSequence s) as [|x q]; [congruence|].
    simpl in Hc. destruct x; [|discriminate].
    destruct (heap s !! l); [|discriminate].
    destruct (combosOf (heap s) q); discriminate.
  - rewrite !run_cons. unfold run. cbn [fold_left step]. rewrite E.
    simpl. auto.
Qed.

Lemma second_record_takes_over_witness :
  exists combos : list (list string),
    combosOf (heap (run typeAB (init noOptions)))
      (_recordedSequence (run typeAB (init noOptions))) = Some combos /\
    combos <> [] /\
    trace
      (run [CallRecord (Some (Fn 7)) (VNum 50) VUndefined VUndefined None;
            TimerFires] (run typeAB (init noOptions))) =
      trace (run typeAB (init noOptions)) ++
      [CompleteCalled (Fn 7)
         (map (fun keys => Joined (normalizeCombo keys)) combos)] /\
    recording
      (run [CallRecord (Some (Fn 7)) (VNum 50) VUndefined VUndefined None;
            TimerFires] (run typeAB (init noOptions))) = false.
Proof.
  apply (second_record_takes_over noOptions typeAB
           (run typeAB (init noOptions)) (VNum 1000) (Fn 7)
           (VNum 50) VUndefined VUndefined None).
  - reflexivity.
  - repeat constructor.
  - reflexivity.
Defined.

Lemma step_delivers_something (i : input) (s : state) :
  (is_Some (_recordTimer s) -> _recordedSequence s <> []) ->
  Forall deliversSomething (trace s) ->
  Forall deliversSomething (trace (step i s).2).
Proof.
  intros Hp Hs.
  destruct i as [cb t p n pcb|c m e|]; cbn [step].
  - exact Hs.
  - destruct (handleKey_effects c m e s) as (calls & P & _ & _ & ->).
    apply Forall_app. split; [assumption|].
    destruct (truthy (_noRepeat s) && repeat e); [constructor|].
    destruct (negb (recording s)); [repeat constructor|].
    apply Forall_app. split.
    + destruct (truthy (_preventDefault s)); repeat constructor.
    + eapply Forall_impl; [exact P|]. intros x (f & strs & _ & ->). exact I.
  - cbv [fireTimer bind gets].
    destruct (_recordTimer s) as [d|] eqn:Ht; [|exact Hs].
    unfold modify at 1.
    destruct (finishRecording_effects (set_recordTimer None s))
      as [E|(f & strs & _ & Hlen & E)]; rewrite E; [exact Hs|].
    apply Forall_app. split; [assumption|].
    constructor; [|constructor]. simpl. simpl in Hlen.
    intros Hnil. apply Hp; [eauto|].
    destruct strs; [|discriminate]. simpl in Hlen.
    now destruct (_recordedSequence s).
Qed.

(** X17. A completion callback is never called with an empty array: the
    timer is only ever started by closing a combo, so whenever it fires and
    the callback is called there is at least one combo string to deliver. *)
Theorem completion_never_empty (o : options) (inputs : list input) :
  Forall deliversSomething (trace (run inputs (init o))).
Proof.
  assert (forall s,
    (is_Some (_recordTimer s) -> _recordedSequence s <> []) ->
    Forall deliversSomething (trace s) ->
    Forall deliversSomething (trace (run inputs s))) as H.
  { induction inputs as [|i r IH]; intros s Hp Hs; [exact Hs|].
    rewrite run_cons. apply IH.
    - apply (pending_timer_has_combo [i] s Hp).
    - now apply step_delivers_something. }
  apply H; [|constructor]. simpl. intros [x Hx]. discriminate.
Qed.

End Safety.

(** ** Keys that are already held, and the first recording *)

Section HeldKeys.

Lemma recordKeys_held (keys : list string) (s : state) :
  Forall (fun k => k ∈ currentKeys s) keys ->
  for_each _recordKey keys s = (Ok tt, s).
Proof.
  induction 1 as [|k r Hk _ IH]; [reflexivity|].
  simpl. rewrite bind_run, (recordKey_held k s Hk). exact IH.
Qed.

(** X18. A processed keydown all of whose keys are already in the
    accumulator, and which is not a re-entry boundary, records nothing and
    calls no progress callback: holding a modifier down, whose keydown
    repeats, leaves the session as it is (but for the prevented default). *)
Theorem keydown_of_held_keys_changes_nothing (s : state)
  (character : string) (modifiers : list string) (e : KeyEvent) :
  processed e s = true ->
  type e = keydown ->
  (String.length character =? 1)%nat && _recordedCharacterKey s = false ->
  Forall (fun k => k ∈ currentKeys s) (modifiers ++ [character]) ->
  _handleKey character modifiers e s =
    (Ok tt,
     if truthy (_preventDefault s) then emit (DefaultPrevented e) s else s).
Proof.
  intros Hp Hty Hre Hheld.
  unfold processed in Hp. apply andb_true_iff in Hp as [Hf Hrec].
  apply negb_true_iff in Hf.
  rewrite handleKey_run, Hf, Hrec, Hty, Hre. cbn [negb].
  rewrite for_each_snoc. apply recordKeys_held.
  destruct (truthy (_preventDefault s)); exact Hheld.
Qed.

Lemma keydown_of_held_keys_changes_nothing_witness :
  _handleKey "ctrl" ["ctrl"] held
    (run [recordWithProgress 0 1; KeyEventArrives "ctrl" ["ctrl"] down]
       (init noOptions)) =
    (Ok tt,
     if truthy
          (_preventDefault
             (run [recordWithProgress 0 1;
                   KeyEventArrives "ctrl" ["ctrl"] down] (init noOptions)))
     then emit (DefaultPrevented held)
            (run [recordWithProgress 0 1;
                  KeyEventArrives "ctrl" ["ctrl"] down] (init noOptions))
     else run [recordWithProgress 0 1; KeyEventArrives "ctrl" ["ctrl"] down]
            (init noOptions)).
Proof.
  apply (keydown_of_held_keys_changes_nothing
           (run [recordWithProgress 0 1; KeyEventArrives "ctrl" ["ctrl"] down]
              (init noOptions)) "ctrl" ["ctrl"] held); try reflexivity.
  vm_compute. repeat constructor.
Defined.

Lemma recordKey_flag (key : string) (s : state) :
  _recordedCharacterKey (_recordKey key s).2 =
    if existsb (String.eqb key) (currentKeys s) then _recordedCharacterKey s
    else if (String.length key =? 1)%nat then true
         else _recordedCharacterKey s.
Proof.
  rewrite recordKey_run.
  destruct (existsb (String.eqb key) (currentKeys s)); [reflexivity|].
  cbv zeta.
  destruct (_recordProgressCallback s) as [f|];
    [destruct (_normalizeSequence _ _) as [[[]|e] [q' h']]|];
    destruct (String.length key =? 1)%nat; reflexivity.
Qed.

Lemma nonempty_perm (keys keys' : list string) :
  keys' ≡ₚ keys -> keys <> [] -> keys' <> [].
Proof.
  intros Hp Hne ->. apply Hne. now apply Permutation_nil.
Qed.

Lemma closedCombos_recordKey (key : string) (s : state) :
  sessionInv s -> closedCombosNonEmpty s ->
  closedCombosNonEmpty (_recordKey key s).2.
Proof.
  intros Hinv [Hflag Hseq].
  pose proof (sessionInv_recordKey key s Hinv) as Hinv'.
  pose proof (recordKey_members key s Hinv) as Hm.
  destruct (recordKey_store key s Hinv) as [Hcur Hother].
  destruct (recordKey_frame key s) as (F1 & _ & F3 & _).
  split.
  - rewrite recordKey_flag. intros Hf.
    destruct (existsb (String.eqb key) (currentKeys s)) eqn:Ex.
    + destruct (Hflag Hf) as (k & Hk & Hlen). exists k.
      split; [apply Hm; now left|assumption].
    + destruct (String.length key =? 1)%nat eqn:El.
      * exists key. split; [apply Hm; now right|now apply Nat.eqb_eq].
      * destruct (Hflag Hf) as (k & Hk & Hlen). exists k.
        split; [apply Hm; now left|assumption].
  - rewrite F1. intros l Hl. destruct (Hseq l Hl) as (keys & Hk & Hne).
    destruct (decide (l = _currentRecordedKeys s)) as [->|Hneq].
    + exists (currentKeys (_recordKey key s).2). split.
      * rewrite <- F3. now apply currentKeys_lookup.
      * assert (currentKeys s = keys) as Hck
          by (unfold currentKeys; now rewrite Hk).
        eapply nonempty_perm; [exact Hcur|].
        rewrite Hck.
        destruct (existsb (String.eqb key) keys); [assumption|].
        now destruct keys.
    + destruct (Hother l keys Hneq Hk) as (keys' & E & Hp).
      exists keys'. split; [assumption|]. eapply nonempty_perm; eauto.
Qed.

Lemma closedCombos_close (s : state) :
  sessionInv s -> closedCombosNonEmpty s -> currentKeys s <> [] ->
  closedCombosNonEmpty (_recordCurrentCombo s).2.
Proof.
  intros Hinv [Hflag Hseq] Hne. rewrite recordCurrentCombo_run.
  split; simpl; [discriminate|].
  intros l Hl. apply elem_of_app in Hl as [Hl|Hl].
  - destruct (Hseq l Hl) as (keys & Hk & Hkne). exists keys.
    split; [|assumption]. rewrite lookup_app_l; [assumption|].
    eapply lookup_lt_Some, Hk.
  - apply list_elem_of_singleton in Hl. inversion Hl; subst.
    exists (currentKeys s). split; [|assumption].
    rewrite lookup_app_l by apply Hinv. now apply currentKeys_lookup.
Qed.

Lemma closedCombos_step (i : input) (s : state) :
  i <> TimerFires ->
  sessionInv s /\ closedCombosNonEmpty s ->
  sessionInv (step i s).2 /\ closedCombosNonEmpty (step i s).2.
Proof.
  intros Hi [Hinv Hk]. split; [now apply sessionInv_step|].
  destruct i as [cb t p n pcb|c m e|]; [exact Hk| |congruence].
  cbn [step]. rewrite handleKey_run.
  destruct (truthy (_noRepeat s) && repeat e); [exact Hk|].
  destruct (recording s) eqn:Hrec; cbn [negb]; [|exact Hk].
  assert (sessionInv (if truthy (_preventDefault s)
                      then emit (DefaultPrevented e) s else s) /\
          closedCombosNonEmpty (if truthy (_preventDefault s)
                                then emit (DefaultPrevented e) s else s) /\
          currentKeys (if truthy (_preventDefault s)
                       then emit (DefaultPrevented e) s else s) =
            currentKeys s) as (I0 & K0 & C0).
  { destruct (truthy (_preventDefault s)); repeat split; auto;
      try apply Hinv; apply Hk. }
  destruct (type e).
  - rewrite for_each_snoc.
    destruct (keydown_base s c e Hinv Hrec) as [I1 _].
    enough (sessionInv
              (for_each _recordKey (m ++ [c])
                 (if (String.length c =? 1)%nat && _recordedCharacterKey s
                  then (_recordCurrentCombo
                          (if truthy (_preventDefault s)
                           then emit (DefaultPrevented e) s else s)).2
                  else if truthy (_preventDefault s)
                       then emit (DefaultPrevented e) s else s)).2 /\
            closedCombosNonEmpty
              (for_each _recordKey (m ++ [c])
                 (if (String.length c =? 1)%nat && _recordedCharacterKey s
                  then (_recordCurrentCombo
                          (if truthy (_preventDefault s)
                           then emit (DefaultPrevented e) s else s)).2
                  else if truthy (_preventDefault s)
                       then emit (DefaultPrevented e) s else s)).2)
      as [_ H] by exact H.
    apply (for_each_keeps (fun s' => sessionInv s' /\ closedCombosNonEmpty s')).
    + intros k s1 [A B]. split; [now apply sessionInv_recordKey|].
      now apply closedCombos_recordKey.
    + split; [exact I1|].
      destruct ((String.length c =? 1)%nat && _recordedCharacterKey s)
        eqn:Ere; [|exact K0].
      apply closedCombos_close; auto. rewrite C0.
      apply andb_true_iff in Ere as [_ Hf].
      destruct (proj1 Hk Hf) as (k & Hin & _). intros E. rewrite E in Hin.
      inversion Hin.
  - destruct (0 <? length (currentKeys s))%nat eqn:El; [|exact K0].
    apply closedCombos_close; auto. rewrite C0. intros E. rewrite E in El.
    discriminate.
  - exact K0.
Qed.

(** X19. Until the timer first fires, no empty combo is recorded: every key
    array of the sequence holds at least one key, and the character-key flag
    is set only while the accumulator holds a character key.  (After a
    timer has fired with a character key held this can fail.) *)
Theorem no_empty_combo_before_first_timer (o : options)
  (inputs : list input) :
  Forall (fun i => i <> TimerFires) inputs ->
  (_recordedCharacterKey (run inputs (init o)) = true ->
   holdsCharacterKey (run inputs (init o))) /\
  (forall l keys,
      Combo l ∈ _recordedSequence (run inputs (init o)) ->
      heap (run inputs (init o)) !! l = Some keys -> keys <> []).
Proof.
  intros Hall.
  assert (forall s, sessionInv s /\ closedCombosNonEmpty s ->
                    sessionInv (run inputs s) /\
                    closedCombosNonEmpty (run inputs s)) as H.
  { induction inputs as [|i r IH]; intros s Hs; [exact Hs|].
    inversion Hall; subst. rewrite run_cons.
    apply IH; [assumption|]. now apply closedCombos_step. }
  destruct (H (init o)) as [_ [Hflag Hseq]].
  { split; [apply sessionInv_init|]. split; simpl; [discriminate|].
    intros l Hl. inversion Hl. }
  split; [assumption|]. intros l keys Hl Hk.
  destruct (Hseq l Hl) as (keys' & Hk' & Hne). congruence.
Qed.

Lemma no_empty_combo_before_first_timer_witness :
  (_recordedCharacterKey (run typeAB (init noOptions)) = true ->
   holdsCharacterKey (run typeAB (init noOptions))) /\
  (forall l keys,
      Combo l ∈ _recordedSequence (run typeAB (init noOptions)) ->
      heap (run typeAB (init noOptions)) !! l = Some keys -> keys <> []).
Proof.
  apply (no_empty_combo_before_first_timer noOptions typeAB).
  repeat constructor; discriminate.
Defined.

End HeldKeys.

(** ** Closed combos are not touched again *)

Section ClosedCombos.

Local Abbreviation sameKeys := (Forall2 (fun k k' : list string => k ≡ₚ k')).

Lemma closedBefore_recordKey (key : string) (s : state) :
  closedBeforeCurrent s -> closedBeforeCurrent (_recordKey key s).2.
Proof.
  unfold closedBeforeCurrent.
  destruct (recordKey_frame key s) as (-> & _ & -> & _). auto.
Qed.

Lemma closedBefore_close (s : state) :
  sessionInv s -> closedBeforeCurrent s ->
  closedBeforeCurrent (_recordCurrentCombo s).2.
Proof.
  unfold closedBeforeCurrent. intros Hinv H. rewrite recordCurrentCombo_run.
  simpl. pose proof (inv_current s Hinv) as Hlt.
  apply Forall_app. split.
  - eapply Forall_impl; [exact H|]. intros [l|str]; [lia|auto].
  - constructor; [assumption|constructor].
Qed.

(** The store and the sequence after [_finishRecording]. *)
Lemma finishRecording_store (s : state) :
  exists h',
    sameKeys (heap s) h' /\
    ((heap (_finishRecording s).2 = h' ++ [[]] /\
      _currentRecordedKeys (_finishRecording s).2 = length h' /\
      _recordedSequence (_finishRecording s).2 = []) \/
     (heap (_finishRecording s).2 = h' /\
      _currentRecordedKeys (_finishRecording s).2 = _currentRecordedKeys s /\
      exists strs,
        _recordedSequence (_finishRecording s).2 =
          map Joined strs ++ drop (length strs) (_recordedSequence s))).
Proof.
  pose proof (normalize_sameKeys (_recordedSequence s) (heap s)) as Hk.
  destruct (normalize_prefix (_recordedSequence s) (heap s))
    as (strs & E & _ & _).
  unfold _finishRecording.
  cbv [bind normalizeRecorded modify gets alloc_empty throw ret].
  destruct (_recordedSequenceCallback s) as [[f|]|].
  - destruct (_normalizeSequence _ _) as [[[]|e] [q' h']]; simpl in *;
      exists h'; (split; [assumption|]); [left; auto|right; eauto].
  - destruct (_normalizeSequence _ _) as [[[]|e] [q' h']]; simpl in *;
      exists h'; (split; [assumption|]); right; eauto.
  - exists (heap s). split; [apply sameKeys_refl|]. left. auto.
Qed.

Lemma closedBefore_step (i : input) (s : state) :
  sessionInv s /\ closedBeforeCurrent s ->
  sessionInv (step i s).2 /\ closedBeforeCurrent (step i s).2.
Proof.
  intros [Hinv Hc]. split; [now apply sessionInv_step|].
  destruct i as [cb t p n pcb|c m e|]; cbn [step].
  - exact Hc.
  - enough (sessionInv (_handleKey c m e s).2 /\
            closedBeforeCurrent (_handleKey c m e s).2) as [_ H] by exact H.
    apply (handleKey_keeps
             (fun s' => sessionInv s' /\ closedBeforeCurrent s')); auto.
    + intros x s1 [A B]. split; [now apply sessionInv_emit|exact B].
    + intros k s1 [A B] _. split; [now apply sessionInv_recordKey|].
      now apply closedBefore_recordKey.
    + intros s1 [A B] Hrec.
      split; [now apply sessionInv_recordCurrentCombo|].
      now apply closedBefore_close.
  - cbv [fireTimer bind gets].
    destruct (_recordTimer s) as [d|]; [|exact Hc].
    unfold modify at 1.
    destruct (finishRecording_store (set_recordTimer None s))
      as (h' & Hs & [(E1 & E2 & E3)|(E1 & E2 & strs & E3)]);
      unfold closedBeforeCurrent; rewrite E2, E3; [constructor|].
    apply Forall_app. split.
    + apply Forall_forall. intros x Hx.
      apply list_elem_of_fmap in Hx as (str & -> & _). exact I.
    + apply Forall_drop. exact Hc.
Qed.

Lemma closedBefore_run (inputs : list input) (o : options) :
  sessionInv (run inputs (init o)) /\
  closedBeforeCurrent (run inputs (init o)).
Proof.
  assert (forall s, sessionInv s /\ closedBeforeCurrent s ->
                    sessionInv (run inputs s) /\
                    closedBeforeCurrent (run inputs s)) as H.
  { induction inputs as [|i r IH]; intros s Hs; [exact Hs|].
    rewrite run_cons. now apply IH, closedBefore_step. }
  apply H. split; [apply sessionInv_init|constructor].
Qed.

(** Pushing keys keeps the key names of every array but the accumulator. *)
Lemma recordKeys_other (keys : list string) :
  forall s : state,
    sessionInv s ->
    forall l ks,
      l <> _currentRecordedKeys s -> heap s !! l = Some ks ->
      exists ks', heap (for_each _recordKey keys s).2 !! l = Some ks' /\
                  ks' ≡ₚ ks.
Proof.
  induction keys as [|k r IH]; intros s Hinv l ks Hne Hl; simpl.
  - eauto.
  - rewrite bind_run.
    destruct (recordKey_store k s Hinv) as [_ Hother].
    destruct (Hother l ks Hne Hl) as (ks1 & E1 & P1).
    pose proof (sessionInv_recordKey k s Hinv) as Hinv'.
    destruct (recordKey_frame k s) as (_ & _ & F3 & _).
    destruct (_recordKey k s) as [[[]|e] s1]; simpl in *; [|eauto].
    destruct (IH s1 Hinv' l ks1) as (ks2 & E2 & P2);
      [congruence|assumption|].
    exists ks2. split; [assumption|]. now rewrite P2.
Qed.

(** X20. A combo that has been closed is not touched again: the accumulator
    is a new array after every boundary, so whatever comes next, a key
    event, a [record] call or the timer, every key array of the sequence
    still holds the key names it held, in some order. *)
Theorem closed_combos_keep_their_keys (o : options) (inputs : list input)
  (i : input) (l : nat) (keys : list string) :
  Combo l ∈ _recordedSequence (run inputs (init o)) ->
  heap (run inputs (init o)) !! l = Some keys ->
  l <> _currentRecordedKeys (run inputs (init o)) /\
  exists keys',
    heap (step i (run inputs (init o))).2 !! l = Some keys' /\
    keys' ≡ₚ keys.
Proof.
  intros Hin Hl.
  destruct (closedBefore_run inputs o) as [Hinv Hc].
  set (s := run inputs (init o)) in *.
  assert (l < _currentRecordedKeys s) as Hlt.
  { unfold closedBeforeCurrent in Hc. rewrite Forall_forall in Hc.
    exact (Hc _ Hin). }
  split; [lia|].
  assert (forall s0 : state,
    heap s0 !! l = Some keys ->
    exists keys', (heap (_recordCurrentCombo s0).2) !! l = Some keys' /\
                  keys' ≡ₚ keys) as Hclose.
  { intros s0 H0. rewrite recordCurrentCombo_run. simpl. exists keys.
    split; [|reflexivity]. rewrite lookup_app_l; [assumption|].
    eapply lookup_lt_Some, H0. }
  destruct i as [cb t p n pcb|c m e|]; cbn [step].
  - exists keys. split; [exact Hl|reflexivity].
  - rewrite handleKey_run.
    destruct (truthy (_noRepeat s) && repeat e); [eauto|].
    destruct (recording s) eqn:Hrec; cbn [negb]; [|eauto].
    assert (heap (if truthy (_preventDefault s)
                  then emit (DefaultPrevented e) s else s) !! l = Some keys)
      as H0 by (destruct (truthy (_preventDefault s)); exact Hl).
    destruct (type e).
    + rewrite for_each_snoc.
      destruct (keydown_base s c e Hinv Hrec) as [I1 _].
      apply recordKeys_other; [exact I1| |].
      * destruct ((String.length c =? 1)%nat && _recordedCharacterKey s);
          [rewrite recordCurrentCombo_run; simpl|];
          destruct (truthy (_preventDefault s)); simpl;
          pose proof (inv_current s Hinv); lia.
      * destruct ((String.length c =? 1)%nat && _recordedCharacterKey s);
          [|exact H0].
        destruct (Hclose _ H0) as (k' & E & _).
        rewrite recordCurrentCombo_run in E |- *. simpl in E |- *.
        rewrite lookup_app_l in E |- * by (eapply lookup_lt_Some, H0).
        exact H0.
    + destruct (0 <? length (currentKeys s))%nat; [|eauto].
      now apply Hclose.
    + eauto.
  - cbv [fireTimer bind gets].
    destruct (_recordTimer s) as [d|]; [|eauto].
    unfold modify at 1.
    destruct (finishRecording_store (set_recordTimer None s))
      as (h' & Hs & [(E1 & _)|(E1 & _)]); rewrite E1;
      destruct (Forall2_lookup_l _ _ _ _ _ Hs Hl) as (keys' & E & P);
      exists keys'; (split; [|now symmetry]); [|exact E].
    rewrite lookup_app_l; [exact E|]. eapply lookup_lt_Some, E.
Qed.

Lemma closed_combos_keep_their_keys_witness :
  0 <> _currentRecordedKeys
         (run [recordWithProgress 0 1;
               KeyEventArrives "k" ["shift"; "ctrl"] down;
               KeyEventArrives "k" [] up] (init noOptions)) /\
  exists keys',
    heap
      (step (KeyEventArrives "a" ["ctrl"] down)
         (run [recordWithProgress 0 1;
               KeyEventArrives "k" ["shift"; "ctrl"] down;
               KeyEventArrives "k" [] up] (init noOptions))).2 !! 0 =
      Some keys' /\
    keys' ≡ₚ ["ctrl"; "shift"; "k"].
Proof.
  apply (closed_combos_keep_their_keys noOptions
           [recordWithProgress 0 1;
            KeyEventArrives "k" ["shift"; "ctrl"] down;
            KeyEventArrives "k" [] up]
           (KeyEventArrives "a" ["ctrl"] down) 0 ["ctrl"; "shift"; "k"]).
  - vm_compute. left.
  - reflexivity.
Defined.

End ClosedCombos.
